(** * velocity: route resolution, middleware composition and the pooled
    request context

    A shallow embedding of the request-dispatch core of the velocity
    server library ([router.go], [middleware.go], [context.go] and
    [Server.buildHandler] of [velocity.go]).

    Conventions of the embedding:
    - a Go pointer is a location [loc]; a pointer that may be [nil] is an
      [option loc]; a method with a pointer receiver is written as a
      function on the pointee, and lifted to the heap where the identity
      of the object matters (the context pool, the router a group points
      to);
    - a Go slice is a header (array, offset, length, capacity) over a heap
      of backing arrays, so that two slices may share storage;
    - a function value that may be [nil] is an [option]; calling [nil]
      panics;
    - a run-time panic is the [Panic] constructor of [result], or the
      [Panicked] outcome of a running handler. *)

From Stdlib Require Import String Ascii List Arith Lia Bool ZArith.
From stdpp Require Import base option gmap strings list fin_maps.

Set Default Proof Using "Type".
Local Open Scope string_scope.
Local Open Scope list_scope.
Local Open Scope nat_scope.
Local Open Scope stdpp_scope.

(** ** Locations, results and a state monad *)

Definition loc := nat.

Inductive result (A : Type) : Type :=
  | Ok (a : A)
  | Panic (reason : string).
Arguments Ok {A} a.
Arguments Panic {A} reason.

(** Stateful code threads its heap through [St S]. *)
Definition St (S A : Type) : Type := S → A * S.

#[global] Instance St_ret {S} : MRet (St S) := λ A a s, (a, s).
#[global] Instance St_bind {S} : MBind (St S) :=
  λ A B f c s, let '(a, s') := c s in f a s'.

Definition modify {S} (f : S → S) : St S unit := λ s, (tt, f s).

(** ** Go slices over a heap of backing arrays *)

Record slice := Slice {
  base : option loc;   (* the backing array; [None] for the nil slice *)
  off : nat;           (* index of the slice's first cell in the array *)
  len : nat;
  cap : nat
}.

Definition nil_slice : slice := Slice None 0 0 0.

Section slices.
Context {A : Type}.
(** The zero value of the element type. *)
Variable zero : A.
(** The capacity the runtime picks when [append] must reallocate. *)
Variable growslice : nat → nat.

(** [s[i]] for an index the caller has already checked.  A header that
    points outside its array cannot arise in Go; such a cell reads as the
    zero value here. *)
Definition cell (m : gmap loc (list A)) (s : slice) (i : nat) : A :=
  default zero (p ← base s; arr ← m !! p; arr !! (off s + i)).

(** The elements of [s], in order. *)
Definition sl_read (m : gmap loc (list A)) (s : slice) : list A :=
  cell m s <$> seq 0 (len s).

(** [s[i]] with Go's bounds check. *)
Definition sl_index (m : gmap loc (list A)) (s : slice) (i : nat) : result A :=
  if decide (i < len s) then Ok (cell m s i)
  else Panic "index out of range".

(** [make([]T, n)]: a fresh array of [n] zero values. *)
Definition make (n : nat) : St (gmap loc (list A)) slice := λ m,
  let p := fresh (dom m) in
  (Slice (Some p) 0 n n, <[p := replicate n zero]> m).

(** Writing the cells [s[i], s[i+1], ...] with the values [vs]. *)
Definition sl_store (s : slice) (i : nat) (vs : list A)
    (m : gmap loc (list A)) : gmap loc (list A) :=
  match base s with
  | Some p => alter (list_inserts (off s + i) vs) p m
  | None => m
  end.

(** [copy(dst, src)]: moves [min(len(dst), len(src))] elements and
    returns that number; the source is read before the destination is
    written, as [memmove] does. *)
Definition copy (dst src : slice) : St (gmap loc (list A)) nat := λ m,
  let n := Nat.min (len dst) (len src) in
  (n, sl_store dst 0 (take n (sl_read m src)) m).

(** [s[i:]].  Go panics when [i > len(s)]; the subtraction below is only
    meaningful for [i <= len s], which every call in this file has. *)
Definition slice_from (s : slice) (i : nat) : slice :=
  Slice (base s) (off s + i) (len s - i) (cap s - i).

(** [s[i] = v] with Go's bounds check. *)
Definition sl_set (s : slice) (i : nat) (v : A)
    (m : gmap loc (list A)) : result (gmap loc (list A)) :=
  if decide (i < len s) then Ok (sl_store s i [v] m)
  else Panic "index out of range".

(** [append(s, v)]: in place while the capacity allows, otherwise into a
    fresh, larger array. *)
Definition append (s : slice) (v : A) : St (gmap loc (list A)) slice := λ m,
  if decide (len s < cap s) then
    (Slice (base s) (off s) (S (len s)) (cap s), sl_store s (len s) [v] m)
  else
    let n := Nat.max (S (len s)) (growslice (cap s)) in
    let p := fresh (dom m) in
    (Slice (Some p) 0 (S (len s)) n,
     <[p := sl_read m s ++ v :: replicate (n - S (len s)) zero]> m).

(** A slice is live in [m] when its array, if any, is allocated there. *)
Definition live (m : gmap loc (list A)) (s : slice) : Prop :=
  ∀ p, base s = Some p → p ∈ dom m.
End slices.

(** ** The world a handler runs in *)

(** The values of Go's [any] that the store is exercised with. *)
Inductive any : Type :=
  | any_nil
  | any_string (s : string)
  | any_int (z : Z)
  | any_bool (b : bool).

(** Modelled from the spec: the [nwep] package is an external collaborator
    and not part of this repository.  A request view carries the path and
    the method token; a response writer is an opaque handle whose completed
    responses are recorded in the world; the status and method constants
    have the values the doc comments of [context.go] and [router.go]
    give them. *)
Record nwep_Request := { Path : string; Method : string; Body : string }.

Definition StatusNotFound : string := "not_found".
Definition MethodRead : string := "read".
Definition MethodWrite : string := "write".
Definition MethodUpdate : string := "update".
Definition MethodDelete : string := "delete".

(** [context.go]: [type Context struct]. *)
Record Context := mkContext {
  Response : option loc;
  Request : option nwep_Request;
  server : option loc;
  store : option (gmap string any)
}.

Definition zeroContext : Context := mkContext None None None None.

Record LogEntry := { level : string; msg : string; fields : list (string * string) }.

Record World := mkWorld {
  contexts : gmap loc Context;            (* the Context objects *)
  ctxPool : list loc;                     (* what [ctxPool] holds *)
  responses : list (loc * string * string); (* writer, status, body *)
  logged : list LogEntry                  (* the logging collaborator *)
}.

(** How a call of a handler ends: it returns an [error] ([None] is the
    [nil] error) or it panics. *)
Inductive outcome : Type :=
  | Return (err : option string)
  | Panicked (v : string).

(** [velocity.go]: [type HandlerFunc func(c *Context) error].  The body is
    called on the context's location; [None] is the [nil] function. *)
Definition HandlerBody : Type := loc → World → World * outcome.
Definition HandlerFunc : Type := option HandlerBody.

(** [middleware.go]: [type MiddlewareFunc func(next HandlerFunc) HandlerFunc]. *)
Definition MiddlewareFunc : Type := option (HandlerFunc → HandlerFunc).

(** Calling a handler value. *)
Definition call (h : HandlerFunc) (c : loc) (w : World) : World * outcome :=
  match h with
  | Some body => body c w
  | None => (w, Panicked "invalid memory address or nil pointer dereference")
  end.

(** ** middleware.go *)

(** The loop [for i := len(mw) - 1; i >= 0; i-- { h = mw[i](h) }], with
    [n = i + 1] iterations left to run. *)
Fixpoint applyMiddleware_loop (m : gmap loc (list MiddlewareFunc)) (mw : slice)
    (n : nat) (h : HandlerFunc) : result HandlerFunc :=
  match n with
  | 0 => Ok h
  | S i =>
      match sl_index None m mw i with
      | Ok (Some d) => applyMiddleware_loop m mw i (d h)
      | Ok None => Panic "invalid memory address or nil pointer dereference"
      | Panic e => Panic e
      end
  end.

Definition applyMiddleware (m : gmap loc (list MiddlewareFunc))
    (h : HandlerFunc) (mw : slice) : result HandlerFunc :=
  applyMiddleware_loop m mw (len mw) h.

(** ** router.go *)

Definition combineMW (a b : slice) : St (gmap loc (list MiddlewareFunc)) slice :=
  combined ← make None (len a + len b);
  _ ← copy None combined a;
  _ ← copy None (slice_from combined (len a)) b;
  mret combined.

Record route := mkRoute { handler : HandlerFunc; middleware : slice }.

Record prefixRoute := mkPrefixRoute { pr_prefix : string; pr_route : route }.

Record Router := mkRouter {
  exact : gmap string route;
  prefixes : list prefixRoute;
  notFound : HandlerFunc
}.

Definition NewRouter : Router := mkRouter ∅ [] None.

Definition Router_Handle (path : string) (h : HandlerFunc) (mw : slice)
    (rt : Router) : Router :=
  mkRouter (<[path := mkRoute h mw]> (exact rt)) (prefixes rt) (notFound rt).

Definition Router_Method (method path : string) (h : HandlerFunc) (mw : slice)
    (rt : Router) : Router :=
  let key := (method +:+ " ") +:+ path in
  mkRouter (<[key := mkRoute h mw]> (exact rt)) (prefixes rt) (notFound rt).

Definition Router_Read := Router_Method MethodRead.
Definition Router_Write := Router_Method MethodWrite.
Definition Router_Update := Router_Method MethodUpdate.
Definition Router_Delete := Router_Method MethodDelete.

Definition Router_HandlePrefix (prefix : string) (h : HandlerFunc) (mw : slice)
    (rt : Router) : Router :=
  mkRouter (exact rt) (prefixes rt ++ [mkPrefixRoute prefix (mkRoute h mw)])
    (notFound rt).


(** One iteration of the prefix scan of [Find]; the state is
    [(best, bestLen)]. *)
Definition scan_step (path : string) (st : option route * nat)
    (pr : prefixRoute) : option route * nat :=
  if String.prefix (pr_prefix pr) path
     && (snd st <? String.length (pr_prefix pr))
  then (Some (pr_route pr), String.length (pr_prefix pr))
  else st.

Definition scan (path : string) (prs : list prefixRoute) : option route * nat :=
  foldl (scan_step path) (None, 0) prs.

(** [Find] only reads the router.  The slice it combines does not outlive
    the call, so the heap after the call is not part of the result. *)
Definition Router_Find (m : gmap loc (list MiddlewareFunc)) (rt : Router)
    (path method : string) (globalMW : slice) : result HandlerFunc :=
  match exact rt !! ((method +:+ " ") +:+ path) with
  | Some r =>
      let '(mws, m') := combineMW globalMW (middleware r) m in
      applyMiddleware m' (handler r) mws
  | None =>
  match exact rt !! path with
  | Some r =>
      let '(mws, m') := combineMW globalMW (middleware r) m in
      applyMiddleware m' (handler r) mws
  | None =>
  match fst (scan path (prefixes rt)) with
  | Some best =>
      let '(mws, m') := combineMW globalMW (middleware best) m in
      applyMiddleware m' (handler best) mws
  | None =>
  match notFound rt with
  | Some _ => applyMiddleware m (notFound rt) globalMW
  | None => Ok None
  end end end end.

(** The heap of the registration phase: the backing arrays of the
    decorator slices and the [Router] objects. *)
Record Heap := mkHeap {
  mem : gmap loc (list MiddlewareFunc);
  routers : gmap loc Router
}.

Definition on_mem {A} (c : St (gmap loc (list MiddlewareFunc)) A) : St Heap A :=
  λ σ, let '(a, m') := c (mem σ) in (a, mkHeap m' (routers σ)).

(** A method call [rt.f(...)] through the pointer [rt]. *)
Definition on_router (rt : loc) (f : Router → Router) : St Heap unit :=
  modify (λ σ, mkHeap (mem σ) (alter f rt (routers σ))).

Record Group := mkGroup {
  g_prefix : string;
  g_router : loc;
  g_middleware : slice
}.

Definition Router_Group (rt : loc) (prefix : string) (mw : slice) : Group :=
  mkGroup prefix rt mw.

Definition Group_Handle (g : Group) (path : string) (h : HandlerFunc)
    (mw : slice) : St Heap unit :=
  mws ← on_mem (combineMW (g_middleware g) mw);
  on_router (g_router g) (Router_Handle (g_prefix g +:+ path) h mws).

Definition Group_Method (g : Group) (method path : string) (h : HandlerFunc)
    (mw : slice) : St Heap unit :=
  mws ← on_mem (combineMW (g_middleware g) mw);
  on_router (g_router g) (Router_Method method (g_prefix g +:+ path) h mws).

Definition Group_Read (g : Group) := Group_Method g MethodRead.
Definition Group_Write (g : Group) := Group_Method g MethodWrite.
Definition Group_Update (g : Group) := Group_Method g MethodUpdate.
Definition Group_Delete (g : Group) := Group_Method g MethodDelete.

Definition Group_HandlePrefix (g : Group) (prefix : string) (h : HandlerFunc)
    (mw : slice) : St Heap unit :=
  mws ← on_mem (combineMW (g_middleware g) mw);
  on_router (g_router g) (Router_HandlePrefix (g_prefix g +:+ prefix) h mws).

Definition Group_Group (g : Group) (prefix : string) (mw : slice) : St Heap Group :=
  mws ← on_mem (combineMW (g_middleware g) mw);
  mret (mkGroup (g_prefix g +:+ prefix) (g_router g) mws).

(** ** context.go *)

(** Modelled from the spec: [sync.Pool] belongs to Go's standard library.
    [Get] hands out an arbitrary pooled item, or ignores the pool and calls
    [New]; [pick] is that choice.  [Put] adds an item. *)
Definition Pool_Get (pick : option nat) : St World loc := λ w,
  match pick ≫= (λ i, ctxPool w !! i ≫= (λ c, Some (i, c))) with
  | Some (i, c) =>
      (c, mkWorld (contexts w) (delete i (ctxPool w)) (responses w) (logged w))
  | None =>
      let c := fresh (dom (contexts w)) in
      (c, mkWorld (<[c := zeroContext]> (contexts w)) (ctxPool w)
            (responses w) (logged w))
  end.

Definition Pool_Put (c : loc) : St World unit :=
  modify (λ w, mkWorld (contexts w) (c :: ctxPool w) (responses w) (logged w)).

(** An assignment to a field of the object [c] points to. *)
Definition assign (c : loc) (f : Context → Context) : St World unit :=
  modify (λ w, mkWorld (alter f c (contexts w)) (ctxPool w) (responses w)
                 (logged w)).

Definition set_Response (v : option loc) (x : Context) : Context :=
  mkContext v (Request x) (server x) (store x).
Definition set_Request (v : option nwep_Request) (x : Context) : Context :=
  mkContext (Response x) v (server x) (store x).
Definition set_server (v : option loc) (x : Context) : Context :=
  mkContext (Response x) (Request x) v (store x).
Definition set_store (v : option (gmap string any)) (x : Context) : Context :=
  mkContext (Response x) (Request x) (server x) v.

Definition acquireContext (w : loc) (r : nwep_Request) (s : loc)
    (pick : option nat) : St World loc :=
  c ← Pool_Get pick;
  _ ← assign c (set_Response (Some w));
  _ ← assign c (set_Request (Some r));
  _ ← assign c (set_server (Some s));
  _ ← assign c (set_store None);
  mret c.

Definition releaseContext (c : loc) : St World unit :=
  _ ← assign c (set_Response None);
  _ ← assign c (set_Request None);
  _ ← assign c (set_server None);
  _ ← assign c (set_store None);
  Pool_Put c.

Definition Context_Set (key : string) (val : any) (c : Context) : Context :=
  (* if c.store == nil { c.store = make(map[string]any) } *)
  let c' := match store c with
            | None => set_store (Some ∅) c
            | Some _ => c
            end in
  (* c.store[key] = val *)
  set_store ((<[key := val]>) <$> store c') c'.

Definition Context_Get (key : string) (c : Context) : any * bool :=
  match store c with
  | None => (any_nil, false)
  | Some st =>
      match st !! key with
      | Some v => (v, true)
      | None => (any_nil, false)
      end
  end.

Definition Context_MustGet (key : string) (c : Context) : result any :=
  let '(v, ok) := Context_Get key c in
  if negb ok then Panic ("velocity: context key not found: " +:+ key)
  else Ok v.

(** Modelled from the spec: [nwep.ResponseWriter.Respond] completes the
    response of a writer with a status and a body. *)
Definition Respond (wr : loc) (status body : string) : St World (option string) :=
  λ w, (None, mkWorld (contexts w) (ctxPool w)
                (responses w ++ [(wr, status, body)]) (logged w)).

(** [c.NotFound(msg)], through the pointer [c]. *)
Definition Context_NotFound (c : loc) (msg : string) (w : World) : World * outcome :=
  match contexts w !! c ≫= Response with
  | Some wr => let '(err, w') := Respond wr StatusNotFound msg w in (w', Return err)
  | None => (w, Panicked "invalid memory address or nil pointer dereference")
  end.

(** ** velocity.go *)

(** The fields of [Server] that request dispatch reads. *)
Record Server := mkServer { router : loc; mw : slice }.

(** Modelled from the spec: [Logger.Error] of the logging collaborator
    records a message with its key-value pairs. *)
Definition Logger_Error (message : string) (kv : list (string * string))
    (w : World) : World :=
  mkWorld (contexts w) (ctxPool w) (responses w)
    (logged w ++ [Build_LogEntry "error" message kv]).

(** The function [buildHandler] returns, called on one request: [self] is
    the address of the server [s], [σ] the heap the registration phase
    left.  The deferred [releaseContext] runs on return and on panic. *)
Definition buildHandler (σ : Heap) (self : loc) (s : Server) (pick : option nat)
    (w : loc) (r : nwep_Request) (wd : World) : World * outcome :=
  let '(c, wd1) := acquireContext w r self pick wd in
  let '(wd2, out) :=
    match routers σ !! router s with
    | None => (wd1, Panicked "invalid memory address or nil pointer dereference")
    | Some rt =>
        match Router_Find (mem σ) rt (Path r) (Method r) (mw s) with
        | Panic e => (wd1, Panicked e)
        | Ok None =>
            match Context_NotFound c "not found" wd1 with
            | (wd', Return _) => (wd', Return None)
            | (wd', Panicked v) => (wd', Panicked v)
            end
        | Ok (Some h) =>
            match h c wd1 with
            | (wd', Return (Some err)) =>
                (Logger_Error "handler error"
                   [("path", Path r); ("method", Method r); ("error", err)] wd',
                 Return None)
            | (wd', Return None) => (wd', Return None)
            | (wd', Panicked v) => (wd', Panicked v)
            end
        end
    end in
  (snd (releaseContext c wd2), out).

(** ** More of context.go and middleware.go *)

Definition nil_dereference : string :=
  "invalid memory address or nil pointer dereference".

(** Modelled from the spec: further status constants of [nwep], with the
    values the doc comments of [context.go] give them. *)
Definition StatusBadRequest : string := "bad_request".
Definition StatusUnauthorized : string := "unauthorized".
Definition StatusForbidden : string := "forbidden".

(** [c.Method()] and [c.Path()], through the pointer [c]: both read
    [c.Request]. *)
Definition Context_Method (c : loc) (w : World) : result string :=
  match contexts w !! c ≫= Request with
  | Some r => Ok (Method r)
  | None => Panic nil_dereference
  end.



(** [c.Error(status, msg)]. *)
Definition Context_Error (c : loc) (status msg : string) (w : World)
    : World * outcome :=
  match contexts w !! c ≫= Response with
  | Some wr => let '(err, w') := Respond wr status msg w in (w', Return err)
  | None => (w, Panicked nil_dereference)
  end.

Definition Context_Unauthorized (c : loc) := Context_Error c StatusUnauthorized.
Definition Context_Forbidden (c : loc) := Context_Error c StatusForbidden.


(** The set a [for _, x := range xs { set[x] = struct{}{} }] loop builds. *)
Definition set_of `{Countable K} (xs : list K) : gmap K unit :=
  foldl (λ set x, <[x := tt]> set) ∅ xs.

(** [MethodFilter(methods...)]. *)
Definition MethodFilter (methods : list string) : HandlerFunc → HandlerFunc :=
  let set := set_of methods in
  λ next, Some (λ c w,
    match Context_Method c w with
    | Panic e => (w, Panicked e)
    | Ok method =>
        match set !! method with
        | None => Context_Error c StatusBadRequest "method not allowed" w
        | Some _ => call next c w
        end
    end).

Section peers.
(** Modelled from the spec: node ids and connections are [nwep]'s.  A
    node id is a value of a countable type with a zero value;
    [Conn_PeerNodeID r] is [None] when [r.Conn] is [nil] and otherwise the
    node id [r.Conn.PeerIdentity()] reports. *)
Context `{Countable NodeID}.
Variable zeroNodeID : NodeID.
Variable Conn_PeerNodeID : nwep_Request → option NodeID.

(** [c.PeerNodeID()]. *)
Definition Context_PeerNodeID (c : loc) (w : World) : result NodeID :=
  match contexts w !! c ≫= Request with
  | None => Panic nil_dereference
  | Some r =>
      match Conn_PeerNodeID r with
      | None => Ok zeroNodeID
      | Some nid => Ok nid
      end
  end.

(** The node id [c.PeerNodeID()] reports on a context bound to [r]. *)
Definition peer_of (r : nwep_Request) : NodeID :=
  default zeroNodeID (Conn_PeerNodeID r).

(** [RequirePeer()]. *)
Definition RequirePeer (next : HandlerFunc) : HandlerFunc :=
  Some (λ c w,
    match Context_PeerNodeID c w with
    | Panic e => (w, Panicked e)
    | Ok peer =>
        if bool_decide (peer = zeroNodeID)
        then Context_Unauthorized c "peer identity required" w
        else call next c w
    end).

(** [AllowPeers(allowed...)]. *)
Definition AllowPeers (allowed : list NodeID) : HandlerFunc → HandlerFunc :=
  let set := set_of allowed in
  λ next, Some (λ c w,
    match Context_PeerNodeID c w with
    | Panic e => (w, Panicked e)
    | Ok peer =>
        match set !! peer with
        | None => Context_Forbidden c "peer not allowed" w
        | Some _ => call next c w
        end
    end).
End peers.

(** The context [c] is bound in [w] to the writer [wr], the request [r]
    and the server [s]. *)
Definition bound_to (w : World) (c wr : loc) (r : nwep_Request) (s : loc) : Prop :=
  ∃ st, contexts w !! c = Some (mkContext (Some wr) (Some r) (Some s) st).

(** ** More of velocity.go *)

Section appending.
Context {A : Type}.
Variable zero : A.
Variable growslice : nat → nat.

(** [append(s, vs...)]: the elements of [vs] are read first, then written
    after those of [s], in place while the capacity allows and otherwise
    into a fresh, larger array. *)
Definition append_slice (s vs : slice) : St (gmap loc (list A)) slice := λ m,
  let n := len s + len vs in
  if decide (n ≤ cap s) then
    (Slice (base s) (off s) n (cap s), sl_store s (len s) (sl_read zero m vs) m)
  else
    let c := Nat.max n (growslice (cap s)) in
    let p := fresh (dom m) in
    (Slice (Some p) 0 n c,
     <[p := sl_read zero m s ++ sl_read zero m vs ++ replicate (c - n) zero]> m).

(** The header of [s] stays within its array. *)
Definition slice_wf (m : gmap loc (list A)) (s : slice) : Prop :=
  len s ≤ cap s ∧
  match base s with
  | Some p => ∃ arr, m !! p = Some arr ∧ off s + cap s ≤ length arr
  | None => cap s = 0
  end.
End appending.

(** [s.Use(mw...)]: [s.mw = append(s.mw, mw...)]. *)
Definition Server_Use (growslice : nat → nat) (mws : slice) (s : Server)
    : St (gmap loc (list MiddlewareFunc)) Server := λ m,
  let '(mw', m') := append_slice None growslice (mw s) mws m in
  (mkServer (router s) mw', m').

(** ** Options and configuration *)

(** Modelled from the spec: the fields of [nwep.Settings] that
    [Config.Apply] and [WithRole] write. *)
Record nwep_Settings := mkSettings {
  MaxStreams : N;
  MaxMessageSize : N;
  TimeoutMs : N;
  Compression : string;
  Role : string
}.

Definition zeroSettings : nwep_Settings := mkSettings 0 0 0 "" "".

(** [type Config struct]. *)
Record Config := mkConfig {
  cfg_Addr : string;
  cfg_KeyFile : string;
  cfg_KeyEnv : string;
  cfg_Role : string;
  cfg_MaxStreams : N;
  cfg_MaxMessageSize : N;
  cfg_TimeoutMs : N;
  cfg_Compression : string;
  cfg_LogLevel : N
}.

Section options.
(** Keypairs are [nwep]'s.  What [LoadOrGenerateKeypair] and
    [KeypairFromEnv] return depends on the file system and on the
    environment; their outcome for a path or a variable name enters as a
    parameter: a keypair or an error. *)
Context {Keypair : Type}.
Variable LoadOrGenerateKeypair : string → Keypair + string.
Variable KeypairFromEnv : string → Keypair + string.

(** The fields of [Server] that options write, and the log level of the
    [nwep] library that [SetLogLevel] sets ([None]: not set here). *)
Record Setup := mkSetup {
  keypair : option Keypair;
  settings : option nwep_Settings;
  nwep_log_level : option N
}.

(** [type Option]: a function on the server that may fail; here the
    server as the option leaves it, and the error it returns. *)
Definition Option : Type := Setup → Setup * option string.

Definition WithSettings (st : nwep_Settings) : Option :=
  λ s, (mkSetup (keypair s) (Some st) (nwep_log_level s), None).

Definition WithRole (role : string) : Option := λ s,
  let st := match settings s with
            | None => zeroSettings
            | Some st => st
            end in
  (mkSetup (keypair s)
     (Some (mkSettings (MaxStreams st) (MaxMessageSize st) (TimeoutMs st)
              (Compression st) role))
     (nwep_log_level s),
   None).

Definition WithKeypair (kp : Keypair) : Option :=
  λ s, (mkSetup (Some kp) (settings s) (nwep_log_level s), None).

(** [Config.Apply]. *)
Definition Config_Apply (cfg : Config) : Option := λ s,
  let key_file :=
    if decide (cfg_KeyFile cfg ≠ "") then
      match LoadOrGenerateKeypair (cfg_KeyFile cfg) with
      | inr err => (s, Some err)
      | inl kp => (mkSetup (Some kp) (settings s) (nwep_log_level s), None)
      end
    else (s, None) in
  match key_file with
  | (s1, Some err) => (s1, Some err)
  | (s1, None) =>
  let key_env :=
    if decide (cfg_KeyEnv cfg ≠ "" ∧ keypair s1 = None) then
      match KeypairFromEnv (cfg_KeyEnv cfg) with
      | inr err => (s1, Some err)
      | inl kp => (mkSetup (Some kp) (settings s1) (nwep_log_level s1), None)
      end
    else (s1, None) in
  match key_env with
  | (s2, Some err) => (s2, Some err)
  | (s2, None) =>
  let level := if decide (cfg_LogLevel cfg ≠ 0%N) then Some (cfg_LogLevel cfg)
               else nwep_log_level s2 in
  let st0 := zeroSettings in
  let st1 := if decide (0 < cfg_MaxStreams cfg)%N
             then mkSettings (cfg_MaxStreams cfg) (MaxMessageSize st0)
                    (TimeoutMs st0) (Compression st0) (Role st0)
             else st0 in
  let st2 := if decide (0 < cfg_MaxMessageSize cfg)%N
             then mkSettings (MaxStreams st1) (cfg_MaxMessageSize cfg)
                    (TimeoutMs st1) (Compression st1) (Role st1)
             else st1 in
  let st3 := if decide (0 < cfg_TimeoutMs cfg)%N
             then mkSettings (MaxStreams st2) (MaxMessageSize st2)
                    (cfg_TimeoutMs cfg) (Compression st2) (Role st2)
             else st2 in
  let st4 := if decide (cfg_Compression cfg ≠ "")
             then mkSettings (MaxStreams st3) (MaxMessageSize st3)
                    (TimeoutMs st3) (cfg_Compression cfg) (Role st3)
             else st3 in
  let st5 := if decide (cfg_Role cfg ≠ "")
             then mkSettings (MaxStreams st4) (MaxMessageSize st4)
                    (TimeoutMs st4) (Compression st4) (cfg_Role cfg)
             else st4 in
  (mkSetup (keypair s2) (Some st5) level, None)
  end end.

Definition WithConfig (cfg : Config) : Option := Config_Apply cfg.

(** The loop of [New] over its options: it stops at the first option
    that returns an error. *)
Fixpoint New_options (opts : list Option) (s : Setup) : Setup * option string :=
  match opts with
  | [] => (s, None)
  | opt :: rest =>
      match opt s with
      | (s', Some err) => (s', Some ("velocity: option: " +:+ err))
      | (s', None) => New_options rest s'
      end
  end.
End options.

(** ** TrustConfig.Build *)

Section trust.
(** Modelled from the spec: trust stores are [nwep]'s.  [Build] is
    followed through the calls it makes on the library; [refused] tells,
    for the calls made so far, the error the last of them returns
    ([None]: it succeeds). *)
Context {TrustSettings TrustStorage BLSPubkey : Type}.
Variable TrustSettingsDefault : TrustSettings.

Inductive trust_call : Type :=
  | NewTrustStore (settings : TrustSettings)
  | NewTrustStoreWithStorage (settings : TrustSettings) (storage : TrustStorage)
  | AddAnchor (anchor : BLSPubkey)
  | Free.

Variable refused : list trust_call → option string.

Record TrustConfig := mkTrustConfig {
  Settings : option TrustSettings;
  Storage : option TrustStorage;
  Anchors : list BLSPubkey
}.

(** The loop [for _, anchor := range tc.Anchors] of [Build], after the
    calls [made]. *)
Fixpoint add_anchors (anchors : list BLSPubkey) (made : list trust_call)
    : list trust_call * option string :=
  match anchors with
  | [] => (made, None)
  | anchor :: rest =>
      match refused (made ++ [AddAnchor anchor]) with
      | Some err => (made ++ [AddAnchor anchor; Free], Some err)
      | None => add_anchors rest (made ++ [AddAnchor anchor])
      end
  end.

(** The call that creates the store. *)
Definition create_call (tc : TrustConfig) : trust_call :=
  let settings := match Settings tc with
                  | None => TrustSettingsDefault
                  | Some st => st
                  end in
  match Storage tc with
  | Some storage => NewTrustStoreWithStorage settings storage
  | None => NewTrustStore settings
  end.

(** [tc.Build()]: the calls made on the library and the error returned;
    without an error the store that was created is returned. *)
Definition TrustConfig_Build (tc : TrustConfig) : list trust_call * option string :=
  match refused [create_call tc] with
  | Some err => ([create_call tc], Some err)
  | None => add_anchors (Anchors tc) [create_call tc]
  end.
End trust.

(** * Specification-level notions

    The definitions below are not translations of source functions: they
    name what the theorems talk about. *)

(** The nested application [D0(D1(...(Dn-1(h))...))], innermost call
    first; calling a [nil] decorator panics. *)
Definition wrap (d : MiddlewareFunc) (acc : result HandlerFunc) : result HandlerFunc :=
  match acc with
  | Ok h =>
      match d with
      | Some f => Ok (f h)
      | None => Panic "invalid memory address or nil pointer dereference"
      end
  | Panic e => Panic e
  end.

Definition compose (h : HandlerFunc) (ds : list MiddlewareFunc) : result HandlerFunc :=
  foldr wrap (Ok h) ds.

(** What [Find] returns for a route it has selected. *)
Definition route_handler (m : gmap loc (list MiddlewareFunc)) (globalMW : slice)
    (r : route) : result HandlerFunc :=
  let '(mws, m') := combineMW globalMW (middleware r) m in
  applyMiddleware m' (handler r) mws.

(** The entry's prefix is a literal prefix of the path
    ([strings.HasPrefix(path, pr.prefix)]). *)
Definition matches (path : string) (pr : prefixRoute) : bool :=
  String.prefix (pr_prefix pr) path.

Definition plen (pr : prefixRoute) : nat := String.length (pr_prefix pr).

(** What the scan has established after the entries [prs]: either it keeps
    the entry at some index [i], which matches, has a non-zero length, is
    at least as long as every matching entry and strictly longer than every
    matching entry before it; or it keeps nothing, and every matching entry
    has the empty prefix. *)
Definition scan_inv (path : string) (prs : list prefixRoute)
    (st : option route * nat) : Prop :=
  match st.1 with
  | Some r =>
      ∃ i pr, prs !! i = Some pr ∧ pr_route pr = r ∧ plen pr = st.2 ∧
        0 < st.2 ∧ matches path pr = true ∧
        (∀ j pr', prs !! j = Some pr' → matches path pr' = true →
                  plen pr' ≤ st.2) ∧
        (∀ j pr', j < i → prs !! j = Some pr' → matches path pr' = true →
                  plen pr' < st.2)
  | None =>
      st.2 = 0 ∧
      ∀ j pr', prs !! j = Some pr' → matches path pr' = true → plen pr' = 0
  end.

(** The tier that answers a lookup, following the four steps of the
    specification of [Find]. *)
Inductive selection : Type :=
  | SelRoute (r : route)
  | SelNotFound (h : HandlerBody)
  | SelAbsent.

Definition select (rt : Router) (path method : string) : selection :=
  match exact rt !! ((method +:+ " ") +:+ path) with
  | Some r => SelRoute r
  | None =>
  match exact rt !! path with
  | Some r => SelRoute r
  | None =>
  match (scan path (prefixes rt)).1 with
  | Some r => SelRoute r
  | None =>
  match notFound rt with
  | Some h => SelNotFound h
  | None => SelAbsent
  end end end end.

(** Every decorator slice the router holds is live in [m]. *)
Definition router_live (m : gmap loc (list MiddlewareFunc)) (rt : Router) : Prop :=
  (∀ k r, exact rt !! k = Some r → live m (middleware r)) ∧
  (∀ i pr, prefixes rt !! i = Some pr → live m (middleware (pr_route pr))).


(** Modelled from the spec: [Logger.Info] of the logging collaborator
    records a message with its key-value pairs. *)
Definition Logger_Info (message : string) (kv : list (string * string))
    (w : World) : World :=
  mkWorld (contexts w) (ctxPool w) (responses w)
    (logged w ++ [Build_LogEntry "info" message kv]).

Definition info (message : string) : LogEntry := Build_LogEntry "info" message [].

(** The decorator shape the doc comment of [MiddlewareFunc] gives: work
    before, one call of [next], work after, and the error of [next]
    returned.  A panic of [next] skips the work after. *)
Definition around (before after : loc → World → World)
    (next : HandlerFunc) : HandlerFunc :=
  Some (λ c w,
    match call next c (before c w) with
    | (w', Return err) => (after c w', Return err)
    | (w', Panicked v) => (w', Panicked v)
    end).

(** A decorator that logs on the way in and on the way out. *)
Definition tracer (name : string) : HandlerFunc → HandlerFunc :=
  around (λ _, Logger_Info (name +:+ "-before") [])
         (λ _, Logger_Info (name +:+ "-after") []).

(** A decorator that answers by itself and never calls [next]. *)
Definition short_circuit (name : string) (next : HandlerFunc) : HandlerFunc :=
  Some (λ _ w, (Logger_Info name [] w, Return None)).

(** A terminal handler that logs its name. *)
Definition terminal (name : string) : HandlerFunc :=
  Some (λ _ w, (Logger_Info name [] w, Return None)).

(** The handler a decorator returns behaves the same whatever handler the
    decorator was given: it never invokes it. *)
Definition ignores_inner (d : HandlerFunc → HandlerFunc) : Prop :=
  ∀ n1 n2 c w, call (d n1) c w = call (d n2) c w.

(** A heap holding one array of three decorators, and the slice over it. *)
Definition chain_mem (A B C : HandlerFunc → HandlerFunc)
    : gmap loc (list MiddlewareFunc) :=
  {[ 0 := [Some A; Some B; Some C] ]}.
Definition chain_slice : slice := Slice (Some 0) 0 3 3.

(** Every pooled pointer points to an allocated [Context]. *)
Definition pool_ok (w : World) : Prop :=
  ∀ c, c ∈ ctxPool w → c ∈ dom (contexts w).

(** [c.Set(key, val)] through the pointer [c], and a run of such calls. *)
Definition Context_Set_at (c : loc) (key : string) (val : any) : St World unit :=
  assign c (Context_Set key val).

Definition sets_at (c : loc) (kvs : list (string * any)) (w : World) : World :=
  foldl (λ w kv, (Context_Set_at c kv.1 kv.2 w).2) w kvs.

Definition Context_Sets (kvs : list (string * any)) (c : Context) : Context :=
  foldl (λ c kv, Context_Set kv.1 kv.2 c) c kvs.

(** The value most recently set for [key] in a run of [Set] calls. *)
Fixpoint last_set (key : string) (kvs : list (string * any)) : option any :=
  match kvs with
  | [] => None
  | (k, v) :: rest =>
      match last_set key rest with
      | Some v' => Some v'
      | None => if decide (k = key) then Some v else None
      end
  end.

(** No registered route matches the request. *)
Definition no_route_matches (rt : Router) (path method : string) : Prop :=
  exact rt !! ((method +:+ " ") +:+ path) = None ∧
  exact rt !! path = None ∧
  ∀ i pr, prefixes rt !! i = Some pr → matches path pr = false.

(** Sample data for closed instances of the theorems. *)
Definition empty_world : World := mkWorld ∅ [] [] [].
Definition ok_handler : HandlerFunc := Some (λ _ w, (w, Return None)).
Definition users_router : Router :=
  Router_HandlePrefix "/api" ok_handler nil_slice
    (Router_Handle "/users" ok_handler nil_slice NewRouter).
Definition users_heap : Heap := mkHeap ∅ {[ 3 := users_router ]}.
Definition users_server : Server := mkServer 3 nil_slice.
Definition missing_request : nwep_Request := Build_nwep_Request "/missing" "read" "".
Definition first_request : nwep_Request := Build_nwep_Request "/users" "write" "ada".

(** A later mutation of a slice variable: [s[i] = v] or
    [s = append(s, v)].  An assignment that panics on its index leaves the
    heap as it was. *)
Inductive mutation : Type :=
  | SetIndex (i : nat) (v : MiddlewareFunc)
  | Append (v : MiddlewareFunc).

Definition mutate (growslice : nat → nat) (μ : mutation) (s : slice)
    : St (gmap loc (list MiddlewareFunc)) slice := λ m,
  match μ with
  | SetIndex i v =>
      match sl_set s i v m with
      | Ok m' => (s, m')
      | Panic _ => (s, m)
      end
  | Append v => append None growslice s v m
  end.

(** A run of mutations of the two variables [a] and [b]; [true] names
    [a]. *)
Fixpoint mutate_all (growslice : nat → nat) (prog : list (bool * mutation))
    (a b : slice) (m : gmap loc (list MiddlewareFunc))
    : slice * slice * gmap loc (list MiddlewareFunc) :=
  match prog with
  | [] => (a, b, m)
  | (true, μ) :: rest =>
      let '(a', m') := mutate growslice μ a m in mutate_all growslice rest a' b m'
  | (false, μ) :: rest =>
      let '(b', m') := mutate growslice μ b m in mutate_all growslice rest a b' m'
  end.

(** [c] is the concatenation of [a] and [b] as they were in [σ], in an
    array that did not exist in [σ]. *)
Definition combined_of (σ σ' : Heap) (a b c : slice) : Prop :=
  (∃ p, base c = Some p ∧ p ∉ dom (mem σ)) ∧
  sl_read None (mem σ') c = sl_read None (mem σ) a ++ sl_read None (mem σ) b.

(** Sub-groups of sub-groups: [g.Group(p1, mw1...).Group(p2, mw2...)...]. *)
Fixpoint nest (g : Group) (args : list (string * slice)) : St Heap Group :=
  match args with
  | [] => mret g
  | (prefix, mws) :: rest => g' ← Group_Group g prefix mws; nest g' rest
  end.

(** A heap with one router and one array of decorators, and a group on
    that router. *)
Definition group_heap : Heap :=
  mkHeap (chain_mem (tracer "A") (tracer "B") (tracer "C")) {[ 3 := NewRouter ]}.
Definition api_group : Group := mkGroup "/api" 3 chain_slice.

(** * Properties *)

(** ** Slices *)

Section slice_facts.
Context {A : Type} (zero : A).
Implicit Types (m : gmap loc (list A)) (s : slice).

Lemma length_sl_read m s : length (sl_read zero m s) = len s.
Proof. unfold sl_read. by rewrite length_fmap, length_seq. Qed.

Lemma sl_read_lookup m s i :
  i < len s → sl_read zero m s !! i = Some (cell zero m s i).
Proof.
  intros Hi. unfold sl_read. rewrite list_lookup_fmap.
  by rewrite lookup_seq_lt.
Qed.

Lemma sl_read_ext m1 m2 s1 s2 :
  len s1 = len s2 →
  (∀ i, i < len s1 → cell zero m1 s1 i = cell zero m2 s2 i) →
  sl_read zero m1 s1 = sl_read zero m2 s2.
Proof.
  intros Hlen Hc. unfold sl_read. rewrite <- Hlen.
  apply list_fmap_ext. intros i x Hx.
  apply lookup_seq in Hx as [-> ?]. by apply Hc.
Qed.

(** Storing into another array leaves the cells of [s] alone. *)
Lemma cell_insert_ne m s p arr i :
  base s ≠ Some p → cell zero (<[p := arr]> m) s i = cell zero m s i.
Proof.
  intros Hne. unfold cell. destruct (base s) as [q|]; [|done]. simpl.
  rewrite lookup_insert_ne; [done|congruence].
Qed.

Lemma cell_alter_ne m s p f i :
  base s ≠ Some p → cell zero (alter f p m) s i = cell zero m s i.
Proof.
  intros Hne. unfold cell. destruct (base s) as [q|]; [|done]. simpl.
  rewrite lookup_alter_ne; [done|congruence].
Qed.

Lemma live_not_fresh m s : live m s → base s ≠ Some (fresh (dom m)).
Proof. intros Hl Hb. apply Hl in Hb. by apply is_fresh in Hb. Qed.

Lemma live_insert m s p arr : live m s → live (<[p := arr]> m) s.
Proof. intros Hl q Hq. rewrite dom_insert_L. apply Hl in Hq. set_solver. Qed.

Lemma live_alter m s p f : live m s → live (alter f p m) s.
Proof. intros Hl q Hq. rewrite dom_alter_L. by apply Hl. Qed.

(** Allocation does not disturb a live slice. *)
Lemma sl_read_alloc m s arr :
  live m s → sl_read zero (<[fresh (dom m) := arr]> m) s = sl_read zero m s.
Proof.
  intros Hl. apply sl_read_ext; [done|]. intros i _.
  apply cell_insert_ne. by apply live_not_fresh.
Qed.

(** Reading back a freshly written array. *)
Lemma sl_read_whole m p (l : list A) c :
  sl_read zero (<[p := l]> m) (Slice (Some p) 0 (length l) c) = l.
Proof.
  apply list_eq. intros i. destruct (decide (i < length l)) as [Hi|Hi].
  - rewrite sl_read_lookup by done. unfold cell. simpl.
    rewrite lookup_insert_eq. simpl.
    destruct (lookup_lt_is_Some_2 l i Hi) as [x Hx]. by rewrite Hx.
  - rewrite !lookup_ge_None_2; [done|lia|rewrite length_sl_read; simpl; lia].
Qed.

Lemma inserts_two (l1 l2 : list A) :
  list_inserts (length l1) l2
    (list_inserts 0 l1 (replicate (length l1 + length l2) zero))
  = l1 ++ l2.
Proof.
  rewrite replicate_add.
  rewrite list_inserts_0_r by (by rewrite length_replicate).
  rewrite <- (Nat.add_0_r (length l1)) at 1.
  rewrite list_inserts_app_r.
  rewrite <- (app_nil_r (replicate (length l2) zero)).
  rewrite list_inserts_0_r by (by rewrite length_replicate).
  by rewrite app_nil_r.
Qed.
End slice_facts.

(** ** combineMW and applyMiddleware *)

Lemma foldr_wrap_Panic e ds : foldr wrap (Panic e) ds = Panic e.
Proof. induction ds as [|d ds IH]; [done|]. simpl. by rewrite IH. Qed.

Lemma compose_non_nil h (fs : list (HandlerFunc → HandlerFunc)) :
  compose h (Some <$> fs) = Ok (foldr (λ f k, f k) h fs).
Proof.
  unfold compose. induction fs as [|f fs IH]; [done|].
  rewrite fmap_cons. cbn [foldr]. by rewrite IH.
Qed.

Lemma applyMiddleware_loop_take m mw n h :
  n ≤ len mw →
  applyMiddleware_loop m mw n h = foldr wrap (Ok h) (take n (sl_read None m mw)).
Proof.
  revert h. induction n as [|i IH]; intros h Hn; [done|].
  simpl. unfold sl_index. rewrite decide_True by lia.
  rewrite (take_S_r _ _ (cell None m mw i)) by (apply sl_read_lookup; lia).
  rewrite foldr_app. simpl.
  destruct (cell None m mw i) as [d|].
  - apply IH. lia.
  - by rewrite foldr_wrap_Panic.
Qed.

(** [applyMiddleware] builds the nested application of the decorators it
    reads from the slice. *)
Lemma applyMiddleware_compose m h mw :
  applyMiddleware m h mw = compose h (sl_read None m mw).
Proof.
  unfold applyMiddleware, compose.
  rewrite applyMiddleware_loop_take by done.
  rewrite take_ge; [done|]. by rewrite length_sl_read.
Qed.

(** The closed form of [combineMW] on live inputs. *)
Lemma combineMW_eq (m : gmap loc (list MiddlewareFunc)) a b :
  live m a → live m b →
  combineMW a b m =
    (Slice (Some (fresh (dom m))) 0 (len a + len b) (len a + len b),
     <[fresh (dom m) := sl_read None m a ++ sl_read None m b]> m).
Proof.
  intros Ha Hb. unfold combineMW, mbind, St_bind, mret, St_ret, make, copy.
  cbn [len base off slice_from]. f_equal.
  set (p := fresh (dom m)). set (n := len a + len b).
  assert (∀ arr, sl_read None (<[p := arr]> m) a = sl_read None m a) as Ea.
  { intros arr. by apply sl_read_alloc. }
  assert (∀ arr, sl_read None (<[p := arr]> m) b = sl_read None m b) as Eb.
  { intros arr. by apply sl_read_alloc. }
  replace (n `min` len a) with (len a) by lia.
  replace ((n - len a) `min` len b) with (len b) by lia.
  unfold sl_store, slice_from. cbn [base off].
  rewrite Ea, (take_ge (sl_read None m a)) by (rewrite length_sl_read; lia).
  rewrite alter_insert_eq.
  rewrite Eb, (take_ge (sl_read None m b)) by (rewrite length_sl_read; lia).
  rewrite alter_insert_eq.
  f_equal. rewrite ?Nat.add_0_r, ?Nat.add_0_l. subst n.
  pose proof (inserts_two None (sl_read None m a) (sl_read None m b)) as E.
  rewrite !length_sl_read in E. exact E.
Qed.

Lemma route_handler_compose m g r :
  live m g → live m (middleware r) →
  route_handler m g r
  = compose (handler r) (sl_read None m g ++ sl_read None m (middleware r)).
Proof.
  intros Hg Hr. unfold route_handler. rewrite combineMW_eq by done.
  rewrite applyMiddleware_compose. f_equal.
  pose proof (sl_read_whole None m (fresh (dom m))
    (sl_read None m g ++ sl_read None m (middleware r)) (len g + len (middleware r))) as E.
  rewrite length_app, !length_sl_read in E. exact E.
Qed.

(** ** The prefix scan of Find *)

Lemma scan_snoc path prs pr :
  scan path (prs ++ [pr]) = scan_step path (scan path prs) pr.
Proof. unfold scan. by rewrite foldl_app. Qed.

Lemma scan_spec path prs : scan_inv path prs (scan path prs).
Proof.
  induction prs as [|pr prs IH] using rev_ind.
  { split; [done|]. intros j pr' Hj. by rewrite lookup_nil in Hj. }
  rewrite scan_snoc. destruct (scan path prs) as [best n].
  unfold scan_step, scan_inv in *. cbn [fst snd] in *.
  fold (matches path pr). fold (plen pr).
  destruct (matches path pr) eqn:Hm; cbn [andb].
  - destruct (Nat.ltb_spec n (plen pr)) as [Hlt|Hge]; cbn [fst snd].
    + exists (length prs), pr.
      rewrite lookup_app_r, Nat.sub_diag by done.
      repeat split; try done; try lia.
      * intros j pr' Hj Hm'. apply lookup_snoc_Some in Hj as [[? Hj]|[? <-]]; [|done].
        destruct best as [r|].
        -- destruct IH as (i & pr0 & _ & _ & _ & _ & _ & Hmax & _).
           specialize (Hmax j pr' Hj Hm'). lia.
        -- destruct IH as [-> Hz]. specialize (Hz j pr' Hj Hm'). lia.
      * intros j pr' Hlt' Hj Hm'. rewrite lookup_app_l in Hj by done.
        destruct best as [r|].
        -- destruct IH as (i & pr0 & _ & _ & _ & _ & _ & Hmax & _).
           specialize (Hmax j pr' Hj Hm'). lia.
        -- destruct IH as [-> Hz]. specialize (Hz j pr' Hj Hm'). lia.
    + destruct best as [r|].
      * destruct IH as (i & pr0 & Hi & Hr & Hn & Hpos & Hm0 & Hmax & Hfirst).
        exists i, pr0. rewrite lookup_app_l by (by eapply lookup_lt_Some).
        repeat split; try done.
        -- intros j pr' Hj Hm'.
           apply lookup_snoc_Some in Hj as [[? Hj]|[? <-]]; [by eapply Hmax|done].
        -- intros j pr' Hlt' Hj Hm'. apply lookup_lt_Some in Hi.
           rewrite lookup_app_l in Hj by lia. by eapply Hfirst.
      * destruct IH as [-> Hz]. split; [done|]. intros j pr' Hj Hm'.
        apply lookup_snoc_Some in Hj as [[? Hj]|[? <-]]; [by eapply Hz|lia].
  - cbn [fst snd]. destruct best as [r|].
    + destruct IH as (i & pr0 & Hi & Hr & Hn & Hpos & Hm0 & Hmax & Hfirst).
      exists i, pr0. rewrite lookup_app_l by (by eapply lookup_lt_Some).
      repeat split; try done.
      * intros j pr' Hj Hm'.
        apply lookup_snoc_Some in Hj as [[? Hj]|[? <-]]; [by eapply Hmax|congruence].
      * intros j pr' Hlt' Hj Hm'. apply lookup_lt_Some in Hi.
        rewrite lookup_app_l in Hj by lia. by eapply Hfirst.
    + destruct IH as [-> Hz]. split; [done|]. intros j pr' Hj Hm'.
      apply lookup_snoc_Some in Hj as [[? Hj]|[? <-]]; [by eapply Hz|congruence].
Qed.

(** ** Router.Find *)

Lemma live_nil_slice {A} (m : gmap loc (list A)) : live m nil_slice.
Proof. intros p Hp. discriminate Hp. Qed.


Lemma Find_select m rt path method g :
  Router_Find m rt path method g =
    match select rt path method with
    | SelRoute r => route_handler m g r
    | SelNotFound h => applyMiddleware m (Some h) g
    | SelAbsent => Ok None
    end.
Proof.
  unfold Router_Find, select.
  destruct (exact rt !! ((method +:+ " ") +:+ path)); [done|].
  destruct (exact rt !! path); [done|].
  destruct (scan path (prefixes rt)).1; [done|].
  by destruct (notFound rt).
Qed.




(** C2, at the input where the code departs from it.  An entry registered
    with the empty prefix is a literal prefix of every path, yet the scan
    never keeps it: [bestLen] starts at [0] and a candidate must be
    strictly longer.  With that entry as the only route, [Find] yields
    [nil] for every path. *)
Theorem Find_skips_empty_prefix m h mws g path method :
  matches path (mkPrefixRoute "" (mkRoute h mws)) = true ∧
  scan path [mkPrefixRoute "" (mkRoute h mws)] = (None, 0) ∧
  Router_Find m (Router_HandlePrefix "" h mws NewRouter) path method g = Ok None.
Proof.
  split; [by destruct path|]. split; [by destruct path|].
  unfold Router_Find, Router_HandlePrefix, NewRouter.
  cbn [exact prefixes notFound app]. rewrite !lookup_empty.
  by destruct path.
Qed.

(** Among entries with a non-empty prefix the scan does pick the longest
    match, whatever the registration order. *)
Lemma Find_longest_either_order m g ha hab method :
  Router_Find m (Router_HandlePrefix "/ab" hab nil_slice
                   (Router_HandlePrefix "/a" ha nil_slice NewRouter))
    "/ab/x" method g = route_handler m g (mkRoute hab nil_slice) ∧
  Router_Find m (Router_HandlePrefix "/a" ha nil_slice
                   (Router_HandlePrefix "/ab" hab nil_slice NewRouter))
    "/ab/x" method g = route_handler m g (mkRoute hab nil_slice).
Proof.
  unfold Router_Find, Router_HandlePrefix, NewRouter.
  cbn [exact prefixes notFound app]. rewrite !lookup_empty. done.
Qed.

(** On equal lengths the entry met first stays. *)
Lemma scan_tie_keeps_first path pr1 pr2 :
  matches path pr1 = true → 0 < plen pr1 → plen pr2 = plen pr1 →
  (scan path [pr1; pr2]).1 = Some (pr_route pr1).
Proof.
  intros Hm Hpos Heq. unfold scan, scan_step, matches, plen in *.
  cbn [foldl fst snd]. rewrite Hm. cbn [andb].
  destruct (Nat.ltb_spec 0 (String.length (pr_prefix pr1))); [|lia].
  cbn [fst snd]. rewrite Heq, Nat.ltb_irrefl, andb_false_r. done.
Qed.

(** C6. The handler [Find] returns for a selected route is the route's
    handler wrapped in the global decorators followed by the route's own,
    read from the slices as they are at that call; the not-found handler
    is wrapped in the global decorators only. *)
Theorem Find_composition m rt path method g :
  live m g → router_live m rt →
  Router_Find m rt path method g =
    match select rt path method with
    | SelRoute r =>
        compose (handler r) (sl_read None m g ++ sl_read None m (middleware r))
    | SelNotFound h => compose (Some h) (sl_read None m g)
    | SelAbsent => Ok None
    end.
Proof.
  intros Hg [Hex Hpre]. rewrite Find_select.
  assert (∀ r, select rt path method = SelRoute r → live m (middleware r)) as Hl.
  { intros r. unfold select.
    destruct (exact rt !! ((method +:+ " ") +:+ path)) as [r1|] eqn:E1.
    { intros [= <-]. by eapply Hex. }
    destruct (exact rt !! path) as [r2|] eqn:E2.
    { intros [= <-]. by eapply Hex. }
    pose proof (scan_spec path (prefixes rt)) as Hs. unfold scan_inv in Hs.
    destruct (scan path (prefixes rt)).1 as [r3|] eqn:E3.
    { intros [= <-]. destruct Hs as (i & pr & Hi & <- & _). by eapply Hpre. }
    by destruct (notFound rt). }
  destruct (select rt path method) as [r|h|]; [|apply applyMiddleware_compose|done].
  apply route_handler_compose; auto.
Qed.

Lemma Find_composition_witness :
  Router_Find (chain_mem (tracer "A") (tracer "B") (tracer "C")) users_router
    "/users" "read" chain_slice
  = match select users_router "/users" "read" with
    | SelRoute r =>
        compose (handler r)
          (sl_read None (chain_mem (tracer "A") (tracer "B") (tracer "C")) chain_slice
           ++ sl_read None (chain_mem (tracer "A") (tracer "B") (tracer "C"))
                (middleware r))
    | SelNotFound h =>
        compose (Some h)
          (sl_read None (chain_mem (tracer "A") (tracer "B") (tracer "C")) chain_slice)
    | SelAbsent => Ok None
    end.
Proof.
  apply Find_composition.
  - intros p Hp. injection Hp as <-. vm_compute. reflexivity.
  - split.
    + intros k r Hk. unfold users_router, Router_HandlePrefix, Router_Handle in Hk.
      cbn [exact NewRouter] in Hk.
      apply lookup_insert_Some in Hk as [[_ <-]|[_ Hk]];
        [apply live_nil_slice|by rewrite lookup_empty in Hk].
    + intros [|[|i]] pr Hi; simpl in Hi; [|discriminate..].
      injection Hi as <-. apply live_nil_slice.
Defined.

(** ** Decorator chains *)

Lemma around_chain preA postA preB postB preC postC H c w :
  call (around preA postA (around preB postB (around preC postC H))) c w =
    match call H c (preC c (preB c (preA c w))) with
    | (w', Return err) => (postA c (postB c (postC c w')), Return err)
    | (w', Panicked v) => (w', Panicked v)
    end.
Proof.
  unfold around. cbn [call].
  destruct (call H c (preC c (preB c (preA c w)))) as [w' [err|v]]; done.
Qed.

(** C3. [applyMiddleware] builds [D0(D1(...(Dn-1(H))...))].  For a chain
    [A, B, C] around [H]: when [A] never invokes its inner handler the
    composed handler behaves as [A] given no inner handler at all, so
    nothing of [B], [C] or [H] runs; when each decorator does its work
    before, calls its inner handler once and does its work after, the
    work runs in the order A-before, B-before, C-before, H, C-after,
    B-after, A-after. *)
Theorem applyMiddleware_nesting m mw (H : HandlerFunc) :
  (∀ ds, sl_read None m mw = Some <$> ds →
         applyMiddleware m H mw = Ok (foldr (λ D h, D h) H ds)) ∧
  (∀ A B C, sl_read None m mw = [Some A; Some B; Some C] →
     applyMiddleware m H mw = Ok (A (B (C H))) ∧
     (ignores_inner A → ∀ c w, call (A (B (C H))) c w = call (A None) c w) ∧
     (∀ preA postA preB postB preC postC,
        A = around preA postA → B = around preB postB → C = around preC postC →
        ∀ c w, call (A (B (C H))) c w =
          match call H c (preC c (preB c (preA c w))) with
          | (w', Return err) => (postA c (postB c (postC c w')), Return err)
          | (w', Panicked v) => (w', Panicked v)
          end)) ∧
  (sl_read None m mw = [Some (short_circuit "A"); Some (tracer "B"); Some (tracer "C")] →
     ∃ h, applyMiddleware m H mw = Ok h ∧
       ∀ c w, logged (call h c w).1 = logged w ++ [info "A"]) ∧
  (sl_read None m mw = [Some (tracer "A"); Some (tracer "B"); Some (tracer "C")] →
     H = terminal "H" →
     ∃ h, applyMiddleware m H mw = Ok h ∧
       ∀ c w, logged (call h c w).1 =
         logged w ++ [info "A-before"; info "B-before"; info "C-before";
                      info "H";
                      info "C-after"; info "B-after"; info "A-after"]).
Proof.
  assert (∀ ds, sl_read None m mw = Some <$> ds →
            applyMiddleware m H mw = Ok (foldr (λ D h, D h) H ds)) as Hnest.
  { intros ds Hds. rewrite applyMiddleware_compose, Hds.
    apply compose_non_nil. }
  split; [exact Hnest|]. split; [|split].
  - intros A B C Hds. split; [apply (Hnest [A; B; C] Hds)|]. split.
    + intros HA c w. apply HA.
    + intros preA postA preB postB preC postC -> -> -> c w.
      apply around_chain.
  - intros Hds. eexists. split; [apply (Hnest [_; _; _] Hds)|].
    intros c w. done.
  - intros Hds ->. eexists. split; [apply (Hnest [_; _; _] Hds)|].
    intros c w. cbn [foldr]. unfold tracer. rewrite around_chain.
    cbn. by rewrite <- !app_assoc.
Qed.

Lemma applyMiddleware_nesting_witness :
  applyMiddleware (chain_mem (tracer "A") (tracer "B") (tracer "C"))
    (terminal "H") chain_slice
  = Ok (tracer "A" (tracer "B" (tracer "C" (terminal "H")))).
Proof.
  destruct (applyMiddleware_nesting
              (chain_mem (tracer "A") (tracer "B") (tracer "C"))
              chain_slice (terminal "H")) as (_ & T & _).
  apply (T (tracer "A") (tracer "B") (tracer "C")). reflexivity.
Defined.

(** ** The context store *)

Lemma Context_Set_store key val c :
  store (Context_Set key val c) = Some (<[key := val]> (default ∅ (store c))).
Proof. by destruct c as [wr rq sv [st|]]. Qed.

Lemma Context_Sets_store kvs c :
  default ∅ (store (Context_Sets kvs c))
  = foldl (λ st kv, <[kv.1 := kv.2]> st) (default ∅ (store c)) kvs.
Proof.
  revert c. induction kvs as [|[k v] kvs IH]; intros c; [done|].
  cbn [Context_Sets foldl]. unfold Context_Sets in IH. rewrite IH.
  by rewrite Context_Set_store.
Qed.

Lemma lookup_foldl_insert key kvs (st : gmap string any) :
  foldl (λ st kv, <[kv.1 := kv.2]> st) st kvs !! key
  = match last_set key kvs with
    | Some v => Some v
    | None => st !! key
    end.
Proof.
  revert st. induction kvs as [|[k v] kvs IH]; intros st; [done|].
  cbn [foldl last_set]. rewrite IH. cbn [fst snd].
  destruct (last_set key kvs); [done|].
  rewrite lookup_insert. by destruct (decide (k = key)).
Qed.

Lemma Context_Get_store key c :
  Context_Get key c = match default ∅ (store c) !! key with
                      | Some v => (v, true)
                      | None => (any_nil, false)
                      end.
Proof.
  destruct c as [wr rq sv [st|]]; unfold Context_Get; simpl; [done|].
  by rewrite lookup_empty.
Qed.

(** C9. On a context whose store started empty, [Get] returns the value
    most recently set for the key together with [true], and [nil] with
    [false] when the key was never set; it never panics.  [MustGet] returns
    that value when the key is present and panics, naming the key, exactly
    when it is absent. *)
Theorem Get_and_MustGet key kvs c0 :
  store c0 = None →
  let c := Context_Sets kvs c0 in
  Context_Get key c = match last_set key kvs with
                      | Some v => (v, true)
                      | None => (any_nil, false)
                      end ∧
  Context_MustGet key c = match last_set key kvs with
                          | Some v => Ok v
                          | None => Panic ("velocity: context key not found: " +:+ key)
                          end ∧
  ((Context_Get key c).2 = false ↔ last_set key kvs = None) ∧
  ((∃ e, Context_MustGet key c = Panic e) ↔ (Context_Get key c).2 = false).
Proof.
  intros Hc0 c.
  assert (Context_Get key c = match last_set key kvs with
                              | Some v => (v, true)
                              | None => (any_nil, false)
                              end) as HG.
  { rewrite Context_Get_store. subst c. rewrite Context_Sets_store.
    rewrite lookup_foldl_insert, Hc0. cbn [default]. rewrite lookup_empty.
    by destruct (last_set key kvs). }
  split; [exact HG|]. unfold Context_MustGet. rewrite HG.
  destruct (last_set key kvs) as [v|]; simpl.
  - split; [done|]. split; [split; discriminate|].
    split; [intros [e He]|]; discriminate.
  - split; [done|]. split; [done|]. split; [done|]. intros _. by eexists.
Qed.

Lemma Get_and_MustGet_witness :
  Context_Get "user" (Context_Sets [("user", any_string "ada"); ("n", any_int 1)]
                        (mkContext (Some 1) None (Some 2) None))
  = (any_string "ada", true).
Proof.
  apply (Get_and_MustGet "user" [("user", any_string "ada"); ("n", any_int 1)]
           (mkContext (Some 1) None (Some 2) None)).
  reflexivity.
Defined.

(** ** The context pool *)

Lemma Pool_Get_spec pick w :
  pool_ok w →
  let '(c, w') := Pool_Get pick w in
  c ∈ dom (contexts w') ∧ pool_ok w' ∧
  responses w' = responses w ∧ logged w' = logged w.
Proof.
  intros Hok. unfold Pool_Get.
  destruct (pick ≫= λ i, ctxPool w !! i ≫= λ c, Some (i, c)) as [[i c]|] eqn:E.
  - destruct pick as [j|]; [|done]. cbn in E.
    destruct (ctxPool w !! j) as [c'|] eqn:Ej; [|done]. cbn in E.
    injection E as <- <-. cbn [contexts ctxPool responses logged].
    split; [|split; [|done]].
    + apply Hok. by eapply list_elem_of_lookup_2.
    + intros c Hc. cbn [contexts ctxPool] in *. apply Hok.
      by eapply list_elem_of_delete_inv.
  - cbn [contexts ctxPool responses logged]. split; [|split; [|done]].
    + rewrite dom_insert_L. set_solver.
    + intros c Hc. cbn [contexts ctxPool] in *. rewrite dom_insert_L.
      apply Hok in Hc. set_solver.
Qed.

Lemma acquireContext_spec wr r s pick w :
  pool_ok w →
  let '(c, w') := acquireContext wr r s pick w in
  contexts w' !! c = Some (mkContext (Some wr) (Some r) (Some s) None) ∧
  pool_ok w' ∧ responses w' = responses w ∧ logged w' = logged w.
Proof.
  intros Hok. unfold acquireContext, mbind, St_bind, mret, St_ret.
  pose proof (Pool_Get_spec pick w Hok) as HG.
  destruct (Pool_Get pick w) as [c w0].
  destruct HG as (Hc & Hok0 & Hr & Hl).
  unfold assign, modify. cbn [contexts ctxPool responses logged].
  apply elem_of_dom in Hc as [x Hx].
  split; [|split; [|done]].
  - rewrite !lookup_alter_eq, Hx. done.
  - intros c' Hc'. cbn [contexts ctxPool] in *. rewrite !dom_alter_L.
    by apply Hok0.
Qed.

Lemma releaseContext_spec c w :
  c ∈ dom (contexts w) →
  contexts (releaseContext c w).2 !! c = Some zeroContext ∧
  ctxPool (releaseContext c w).2 = c :: ctxPool w ∧
  responses (releaseContext c w).2 = responses w ∧
  logged (releaseContext c w).2 = logged w ∧
  (pool_ok w → pool_ok (releaseContext c w).2).
Proof.
  intros Hc. unfold releaseContext, mbind, St_bind, assign, Pool_Put, modify.
  cbn [snd contexts ctxPool responses logged].
  pose proof Hc as Hc'. apply elem_of_dom in Hc' as [x Hx].
  split; [|split; [done|split; [done|split; [done|]]]].
  - rewrite !lookup_alter_eq, Hx. done.
  - intros Hok c' Hin. cbn [contexts ctxPool] in *. rewrite !dom_alter_L.
    apply elem_of_cons in Hin as [->|Hin]; [done|by apply Hok].
Qed.

Lemma sets_at_spec c kvs w :
  contexts (sets_at c kvs w) = alter (Context_Sets kvs) c (contexts w) ∧
  ctxPool (sets_at c kvs w) = ctxPool w ∧
  responses (sets_at c kvs w) = responses w ∧
  logged (sets_at c kvs w) = logged w.
Proof.
  revert w. induction kvs as [|[k v] kvs IH]; intros w.
  { cbn. repeat split; try done. symmetry. by apply alter_id. }
  change (sets_at c ((k, v) :: kvs) w)
    with (sets_at c kvs (Context_Set_at c k v w).2).
  destruct (IH (Context_Set_at c k v w).2) as (E1 & E2 & E3 & E4).
  rewrite E1, E2, E3, E4. unfold Context_Set_at, assign, modify.
  cbn [snd fst contexts ctxPool responses logged].
  repeat split; try done. by rewrite alter_alter_eq.
Qed.

(** C4. Acquire, write to the store, release, acquire again: the context
    handed out the second time is bound to the new request only and its
    store is empty, whichever instance the pool picks, the released one
    included.  Release leaves every field of the context cleared and puts
    the context in the pool, whatever the request did to the world in
    between. *)
Theorem context_reuse wd pick1 pick2 w1 r1 s1 kvs w2 r2 s2 :
  pool_ok wd →
  let c := (acquireContext w1 r1 s1 pick1 wd).1 in
  let wd1 := (acquireContext w1 r1 s1 pick1 wd).2 in
  let wd2 := sets_at c kvs wd1 in
  let wd3 := (releaseContext c wd2).2 in
  let c' := (acquireContext w2 r2 s2 pick2 wd3).1 in
  let wd4 := (acquireContext w2 r2 s2 pick2 wd3).2 in
  contexts wd1 !! c = Some (mkContext (Some w1) (Some r1) (Some s1) None) ∧
  contexts wd2 !! c
    = Some (Context_Sets kvs (mkContext (Some w1) (Some r1) (Some s1) None)) ∧
  contexts wd3 !! c = Some zeroContext ∧
  ctxPool wd3 = c :: ctxPool wd1 ∧
  contexts wd4 !! c' = Some (mkContext (Some w2) (Some r2) (Some s2) None) ∧
  (∀ key, Context_Get key <$> contexts wd4 !! c' = Some (any_nil, false)) ∧
  (pick2 = Some 0 → c' = c) ∧
  (∀ wd' c0, c0 ∈ dom (contexts wd') →
     contexts (releaseContext c0 wd').2 !! c0 = Some zeroContext ∧
     c0 ∈ ctxPool (releaseContext c0 wd').2).
Proof.
  intros Hok c wd1 wd2 wd3 c' wd4.
  pose proof (acquireContext_spec w1 r1 s1 pick1 wd Hok) as H1.
  destruct (acquireContext w1 r1 s1 pick1 wd) as [c_ wd1_] eqn:E1.
  cbn [fst snd] in c, wd1. destruct H1 as (Hc1 & Hok1 & _ & _).
  destruct (sets_at_spec c kvs wd1) as (S1 & S2 & _ & _). fold wd2 in S1, S2.
  assert (contexts wd2 !! c
          = Some (Context_Sets kvs (mkContext (Some w1) (Some r1) (Some s1) None)))
    as Hc2.
  { rewrite S1, lookup_alter_eq. subst c wd1. by rewrite Hc1. }
  assert (c ∈ dom (contexts wd2)) as Hd2 by (apply elem_of_dom; eauto).
  assert (pool_ok wd2) as Hok2.
  { intros x Hx. rewrite S1, dom_alter_L. apply Hok1. rewrite S2 in Hx.
    exact Hx. }
  destruct (releaseContext_spec c wd2 Hd2) as (R1 & R2 & _ & _ & R5).
  fold wd3 in R1, R2, R5. specialize (R5 Hok2).
  pose proof (acquireContext_spec w2 r2 s2 pick2 wd3 R5) as H4.
  assert (pick2 = Some 0 → c' = c) as Hsame.
  { intros ->. subst c'. unfold acquireContext, mbind, St_bind, Pool_Get.
    rewrite R2. done. }
  destruct (acquireContext w2 r2 s2 pick2 wd3) as [c'_ wd4_] eqn:E4.
  cbn [fst snd] in c', wd4. destruct H4 as (Hc4 & _).
  split; [exact Hc1|]. split; [exact Hc2|]. split; [exact R1|].
  split; [by rewrite R2, S2|]. split; [exact Hc4|].
  split; [intros key; subst c' wd4; by rewrite Hc4|].
  split; [exact Hsame|].
  intros wd' c0 Hc0. destruct (releaseContext_spec c0 wd' Hc0) as (-> & -> & _).
  split; [done|]. apply elem_of_cons. by left.
Qed.

Lemma context_reuse_witness :
  let c := (acquireContext 5 first_request 9 None empty_world).1 in
  let wd1 := (acquireContext 5 first_request 9 None empty_world).2 in
  let wd3 := (releaseContext c (sets_at c [("k", any_int 1)] wd1)).2 in
  contexts (acquireContext 7 missing_request 9 (Some 0) wd3).2
    !! (acquireContext 7 missing_request 9 (Some 0) wd3).1
  = Some (mkContext (Some 7) (Some missing_request) (Some 9) None).
Proof.
  apply (context_reuse empty_world None (Some 0) 5 first_request 9
           [("k", any_int 1)] 7 missing_request 9).
  intros c Hc. simpl in Hc. inversion Hc.
Defined.

(** ** The dispatcher *)

Lemma scan_no_match path prs :
  (∀ i pr, prs !! i = Some pr → matches path pr = false) →
  (scan path prs).1 = None.
Proof.
  intros Hno. pose proof (scan_spec path prs) as Hs. unfold scan_inv in Hs.
  destruct (scan path prs).1 as [r|]; [|done].
  destruct Hs as (i & pr & Hi & _ & _ & _ & Hm & _).
  rewrite (Hno i pr Hi) in Hm. discriminate.
Qed.

Lemma Find_absent m rt path method g :
  no_route_matches rt path method → notFound rt = None →
  Router_Find m rt path method g = Ok None.
Proof.
  intros (E1 & E2 & E3) Hnf. unfold Router_Find.
  by rewrite E1, E2, (scan_no_match _ _ E3), Hnf.
Qed.

(** C5. When no registered route matches the request and no not-found
    handler is set, [Find] yields [nil] and the dispatcher completes the
    response itself with the status "not_found" and the body "not found";
    it logs nothing and ends exactly as on a server whose router has no
    routes at all, so no registered handler takes part. *)
Theorem dispatch_not_found σ self s pick w r wd rt :
  pool_ok wd →
  routers σ !! router s = Some rt →
  no_route_matches rt (Path r) (Method r) →
  notFound rt = None →
  Router_Find (mem σ) rt (Path r) (Method r) (mw s) = Ok None ∧
  (buildHandler σ self s pick w r wd).2 = Return None ∧
  responses (buildHandler σ self s pick w r wd).1
    = responses wd ++ [(w, "not_found", "not found")] ∧
  logged (buildHandler σ self s pick w r wd).1 = logged wd ∧
  buildHandler σ self s pick w r wd
    = buildHandler (mkHeap (mem σ) {[router s := NewRouter]}) self s pick w r wd.
Proof.
  intros Hok Hrt Hno Hnf.
  pose proof (Find_absent (mem σ) rt (Path r) (Method r) (mw s) Hno Hnf) as HF.
  split; [exact HF|].
  assert (buildHandler σ self s pick w r wd
          = buildHandler (mkHeap (mem σ) {[router s := NewRouter]}) self s pick w r wd)
    as Hsame.
  { unfold buildHandler. cbn [routers mem]. rewrite Hrt, lookup_singleton_eq, HF.
    done. }
  split; [|split; [|split; [|exact Hsame]]].
  all: unfold buildHandler; rewrite Hrt, HF.
  all: pose proof (acquireContext_spec w r self pick wd Hok) as HA.
  all: destruct (acquireContext w r self pick wd) as [c wd1].
  all: destruct HA as (Hc & Hok1 & Hr1 & Hl1).
  all: unfold Context_NotFound; rewrite Hc; cbn [mbind option_bind Response].
  all: unfold Respond.
  all: match goal with
       | |- context [releaseContext ?c ?x] =>
           destruct (releaseContext_spec c x) as (_ & _ & R3 & R4 & _);
           [cbn [contexts]; apply elem_of_dom; eauto|]
       end.
  - done.
  - cbn [fst snd]. rewrite R3. cbn [responses]. by rewrite Hr1.
  - cbn [fst snd]. rewrite R4. cbn [logged]. by rewrite Hl1.
Qed.

Lemma dispatch_not_found_witness :
  responses (buildHandler users_heap 1 users_server None 8 missing_request
               empty_world).1
  = [(8, "not_found", "not found")].
Proof.
  refine (proj1 (proj2 (proj2
    (dispatch_not_found users_heap 1 users_server None 8 missing_request
       empty_world users_router _ _ _ _)))).
  - intros c Hc. simpl in Hc. inversion Hc.
  - reflexivity.
  - split; [reflexivity|]. split; [reflexivity|].
    intros [|[|i]] pr Hi; simpl in Hi; [|discriminate..].
    injection Hi as <-. reflexivity.
  - reflexivity.
Defined.

(** ** One exact table *)

Lemma string_length_app (a b : string) :
  String.length (a +:+ b) = String.length a + String.length b.
Proof.
  induction a as [|x a IH]; [done|].
  change (String x a +:+ b) with (String x (a +:+ b)).
  cbn [String.length]. by rewrite IH.
Qed.

Lemma string_app_assoc (a b c : string) : (a +:+ b) +:+ c = a +:+ (b +:+ c).
Proof.
  induction a as [|x a IH]; [done|].
  change ((String x a +:+ b) +:+ c) with (String x ((a +:+ b) +:+ c)).
  by rewrite IH.
Qed.

Lemma string_app_nil_r (a : string) : a +:+ "" = a.
Proof.
  induction a as [|x a IH]; [done|].
  change (String x a +:+ "") with (String x (a +:+ "")). by rewrite IH.
Qed.

(** A composite key is longer than its path. *)
Lemma composite_key_longer (method path : string) :
  (method +:+ " ") +:+ path ≠ path.
Proof.
  intros E. apply (f_equal String.length) in E.
  rewrite !string_length_app in E. cbn in E. lia.
Qed.

(** C10. Method-specific and path-only routes live in the one table
    [exact]: [Method(m, p, h)] is the same write as
    [Handle(m + " " + p, h)], so of two such registrations the later one
    replaces the earlier, in either order, and both lookup steps of [Find]
    read that table: the route is found under method [m] and path [p] by
    the composite-key step, and under the path [m + " " + p] by the
    path-only step. *)
Theorem exact_table_shared method path h mws h' mws' rt :
  Router_Method method path h mws rt
    = Router_Handle ((method +:+ " ") +:+ path) h mws rt ∧
  Router_Handle ((method +:+ " ") +:+ path) h' mws'
      (Router_Method method path h mws rt)
    = Router_Handle ((method +:+ " ") +:+ path) h' mws' rt ∧
  Router_Method method path h mws
      (Router_Handle ((method +:+ " ") +:+ path) h' mws' rt)
    = Router_Method method path h mws rt ∧
  (∀ m g,
     Router_Find m (Router_Handle ((method +:+ " ") +:+ path) h' mws'
                      (Router_Method method path h mws rt)) path method g
       = route_handler m g (mkRoute h' mws') ∧
     Router_Find m (Router_Method method path h mws
                      (Router_Handle ((method +:+ " ") +:+ path) h' mws' rt))
         path method g
       = route_handler m g (mkRoute h mws)) ∧
  (∀ m g other,
     exact rt !! ((other +:+ " ") +:+ ((method +:+ " ") +:+ path)) = None →
     Router_Find m (Router_Method method path h mws rt)
       ((method +:+ " ") +:+ path) other g
       = route_handler m g (mkRoute h mws)).
Proof.
  unfold Router_Method, Router_Handle. cbn [exact prefixes notFound].
  split; [done|]. split; [by rewrite insert_insert_eq|].
  split; [by rewrite insert_insert_eq|]. split.
  - intros m g. unfold Router_Find. cbn [exact].
    by rewrite !lookup_insert_eq.
  - intros m g other Hnone. unfold Router_Find. cbn [exact].
    rewrite lookup_insert_ne, Hnone by (symmetry; apply composite_key_longer).
    by rewrite lookup_insert_eq.
Qed.

Lemma exact_table_shared_witness :
  Router_Find ∅ (Router_Method "read" "/x" ok_handler nil_slice NewRouter)
    "read /x" "write" nil_slice
  = route_handler ∅ nil_slice (mkRoute ok_handler nil_slice).
Proof.
  refine (proj2 (proj2 (proj2 (proj2
    (exact_table_shared "read" "/x" ok_handler nil_slice None nil_slice NewRouter))))
    ∅ nil_slice "write" _).
  reflexivity.
Defined.

(** ** combineMW allocates its result *)

Lemma sl_store_frame (m : gmap loc (list MiddlewareFunc)) s i vs c p :
  base c = Some p → base s ≠ Some p →
  sl_read None (sl_store s i vs m) c = sl_read None m c.
Proof.
  intros Hc Hs. apply sl_read_ext; [done|]. intros j _. unfold sl_store.
  destruct (base s) as [q|] eqn:Eq; [|done].
  apply cell_alter_ne. rewrite Hc. congruence.
Qed.

Lemma dom_sl_store (m : gmap loc (list MiddlewareFunc)) s i vs :
  dom (sl_store s i vs m) = dom m.
Proof. unfold sl_store. destruct (base s); [apply dom_alter_L|done]. Qed.

(** One mutation of a slice that does not sit in the array [p] leaves
    every slice over [p] as it was, and the mutated slice still does not
    sit in [p]. *)
Lemma mutate_frame growslice μ s (m : gmap loc (list MiddlewareFunc)) c p :
  base c = Some p → p ∈ dom m → base s ≠ Some p →
  base (mutate growslice μ s m).1 ≠ Some p ∧
  dom m ⊆ dom (mutate growslice μ s m).2 ∧
  sl_read None (mutate growslice μ s m).2 c = sl_read None m c.
Proof.
  intros Hc Hp Hs. destruct μ as [i v|v]; unfold mutate.
  - unfold sl_set. destruct (decide (i < len s)); cbn [fst snd];
      [|by repeat split].
    split; [done|]. split; [by rewrite dom_sl_store|].
    by eapply sl_store_frame.
  - unfold append. destruct (decide (len s < cap s)); cbn [fst snd base].
    + split; [done|]. split; [by rewrite dom_sl_store|].
      by eapply sl_store_frame.
    + assert (fresh (dom m) ≠ p) as Hne.
      { intros <-. by apply is_fresh in Hp. }
      cbv zeta. cbn [fst snd base]. split; [intros [= E]; by apply Hne|].
      split; [rewrite dom_insert_L; set_solver|].
      apply sl_read_ext; [done|]. intros j _. apply cell_insert_ne.
      rewrite Hc. intros [= E]. apply Hne. symmetry. exact E.
Qed.

Lemma mutate_all_frame growslice prog a b (m : gmap loc (list MiddlewareFunc)) c p :
  base c = Some p → p ∈ dom m → base a ≠ Some p → base b ≠ Some p →
  sl_read None (mutate_all growslice prog a b m).2 c = sl_read None m c.
Proof.
  intros Hc. revert a b m.
  induction prog as [|[[] μ] prog IH]; intros a b m Hp Ha Hb; [done|..];
    cbn [mutate_all].
  - destruct (mutate_frame growslice μ a m c p Hc Hp Ha) as (Ha' & Hd & Hr).
    destruct (mutate growslice μ a m) as [a' m']. cbn [fst snd] in *.
    rewrite IH; [done|set_solver|done|done].
  - destruct (mutate_frame growslice μ b m c p Hc Hp Hb) as (Hb' & Hd & Hr).
    destruct (mutate growslice μ b m) as [b' m']. cbn [fst snd] in *.
    rewrite IH; [done|set_solver|done|done].
Qed.

(** C8. [combineMW(a, b)] returns the elements of [a] followed by those of
    [b] in an array that did not exist before the call; the inputs read as
    before; and no later run of index assignments and appends on [a] and
    [b] changes what the combined slice reads. *)
Theorem combineMW_independent growslice (m : gmap loc (list MiddlewareFunc)) a b :
  live m a → live m b →
  let c := (combineMW a b m).1 in
  let m1 := (combineMW a b m).2 in
  sl_read None m1 c = sl_read None m a ++ sl_read None m b ∧
  (∃ p, base c = Some p ∧ p ∉ dom m) ∧
  len c = len a + len b ∧
  sl_read None m1 a = sl_read None m a ∧
  sl_read None m1 b = sl_read None m b ∧
  ∀ prog,
    sl_read None (mutate_all growslice prog a b m1).2 c
    = sl_read None m a ++ sl_read None m b.
Proof.
  intros Ha Hb c m1. subst c m1. rewrite combineMW_eq by done.
  cbn [fst snd base len].
  assert (sl_read None
            (<[fresh (dom m) := sl_read None m a ++ sl_read None m b]> m)
            (Slice (Some (fresh (dom m))) 0 (len a + len b) (len a + len b))
          = sl_read None m a ++ sl_read None m b) as Hread.
  { pose proof (sl_read_whole None m (fresh (dom m))
      (sl_read None m a ++ sl_read None m b) (len a + len b)) as E.
    rewrite length_app, !length_sl_read in E. exact E. }
  split; [exact Hread|]. split; [eexists; split; [done|apply is_fresh]|].
  split; [done|]. split; [by apply sl_read_alloc|].
  split; [by apply sl_read_alloc|].
  intros prog. rewrite <- Hread at 2.
  eapply mutate_all_frame; [done| |by apply live_not_fresh..].
  rewrite dom_insert_L. set_solver.
Qed.

Lemma combineMW_independent_witness :
  sl_read None
    (mutate_all (λ n, 2 * n) [(true, SetIndex 0 None); (false, Append None)]
       chain_slice nil_slice
       (combineMW chain_slice nil_slice
          (chain_mem (tracer "A") (tracer "B") (tracer "C"))).2).2
    (combineMW chain_slice nil_slice
       (chain_mem (tracer "A") (tracer "B") (tracer "C"))).1
  = sl_read None (chain_mem (tracer "A") (tracer "B") (tracer "C")) chain_slice
    ++ sl_read None (chain_mem (tracer "A") (tracer "B") (tracer "C")) nil_slice.
Proof.
  refine (proj2 (proj2 (proj2 (proj2 (proj2
    (combineMW_independent (λ n, 2 * n)
       (chain_mem (tracer "A") (tracer "B") (tracer "C"))
       chain_slice nil_slice _ _)))))
    [(true, SetIndex 0 None); (false, Append None)]).
  - intros p Hp. injection Hp as <-. vm_compute. reflexivity.
  - intros p Hp. discriminate Hp.
Defined.

(** ** Groups *)

Lemma on_mem_combineMW σ a b :
  live (mem σ) a → live (mem σ) b →
  on_mem (combineMW a b) σ =
    (Slice (Some (fresh (dom (mem σ)))) 0 (len a + len b) (len a + len b),
     mkHeap (<[fresh (dom (mem σ)) := sl_read None (mem σ) a ++ sl_read None (mem σ) b]>
               (mem σ))
            (routers σ)).
Proof. intros Ha Hb. unfold on_mem. by rewrite combineMW_eq. Qed.

Lemma combined_of_fresh σ a b rts :
  combined_of σ
    (mkHeap (<[fresh (dom (mem σ)) := sl_read None (mem σ) a ++ sl_read None (mem σ) b]>
               (mem σ)) rts)
    a b (Slice (Some (fresh (dom (mem σ)))) 0 (len a + len b) (len a + len b)).
Proof.
  split; [eexists; split; [done|apply is_fresh]|]. cbn [mem].
  pose proof (sl_read_whole None (mem σ) (fresh (dom (mem σ)))
    (sl_read None (mem σ) a ++ sl_read None (mem σ) b) (len a + len b)) as E.
  rewrite length_app, !length_sl_read in E. exact E.
Qed.

(** A registration through a group: the decorators are combined into a
    fresh slice [c] and the router the group points to receives the call
    [reg c]. *)
Lemma Group_register σ g mws (reg : slice → Router → Router) :
  live (mem σ) (g_middleware g) → live (mem σ) mws →
  ∃ c, combined_of σ
         ((mws' ← on_mem (combineMW (g_middleware g) mws);
           on_router (g_router g) (reg mws')) σ).2
         (g_middleware g) mws c ∧
       routers ((mws' ← on_mem (combineMW (g_middleware g) mws);
                 on_router (g_router g) (reg mws')) σ).2
       = alter (reg c) (g_router g) (routers σ).
Proof.
  intros Hg Hm. unfold mbind, St_bind. rewrite on_mem_combineMW by done.
  unfold on_router, modify. cbn [fst snd mem routers].
  eexists. split; [apply combined_of_fresh|done].
Qed.

Lemma nest_spec args : ∀ σ g,
  live (mem σ) (g_middleware g) →
  Forall (λ a, live (mem σ) a.2) args →
  g_prefix (nest g args σ).1 = g_prefix g +:+ foldr String.append "" args.*1 ∧
  g_router (nest g args σ).1 = g_router g ∧
  sl_read None (mem (nest g args σ).2) (g_middleware (nest g args σ).1)
    = sl_read None (mem σ) (g_middleware g)
      ++ concat (sl_read None (mem σ) <$> args.*2) ∧
  live (mem (nest g args σ).2) (g_middleware (nest g args σ).1) ∧
  routers (nest g args σ).2 = routers σ.
Proof.
  induction args as [|[pre mws] args IH]; intros σ g Hg Hargs.
  { cbn. by rewrite app_nil_r, string_app_nil_r. }
  apply Forall_cons in Hargs as [Hm Hargs]. cbn [snd] in Hm.
  cbn [nest]. unfold mbind, St_bind, Group_Group.
  unfold mbind, St_bind. rewrite on_mem_combineMW by done.
  unfold mret, St_ret.
  set (p := fresh (dom (mem σ))).
  set (σ' := mkHeap _ (routers σ)).
  set (g' := mkGroup _ _ _).
  assert (∀ s, live (mem σ) s → live (mem σ') s) as Hlive.
  { intros s Hs. by apply live_insert. }
  assert (∀ s, live (mem σ) s → sl_read None (mem σ') s = sl_read None (mem σ) s)
    as Hread.
  { intros s Hs. by apply sl_read_alloc. }
  destruct (IH σ' g') as (E1 & E2 & E3 & E4 & E5).
  { intros q [= <-]. cbn [mem σ']. rewrite dom_insert_L.
    apply elem_of_union. left. by apply elem_of_singleton. }
  { eapply Forall_impl; [exact Hargs|]. intros [? s] Hs. by apply Hlive. }
  rewrite E1, E2, E3, E5. split; [|split; [done|split; [|done]]].
  - cbn [g_prefix g' fmap list_fmap foldr fst]. by rewrite string_app_assoc.
  - assert (sl_read None (mem σ') (g_middleware g')
            = sl_read None (mem σ) (g_middleware g) ++ sl_read None (mem σ) mws)
      as -> by exact (proj2 (combined_of_fresh σ (g_middleware g) mws (routers σ))).
    rewrite <- app_assoc. f_equal. cbn [fmap list_fmap snd concat]. f_equal.
    f_equal. apply Forall_fmap_ext_1. rewrite Forall_fmap.
    eapply Forall_impl; [exact Hargs|]. intros [? s] Hs. cbn. by apply Hread.
Qed.

(** C7. Every registration method of a group calls the same method of the
    router the group points to, with the group's prefix put before the
    path and with a slice that holds the group's decorators followed by
    the call's own; [Read], [Write], [Update] and [Delete] are [Method]
    with their token.  A sub-group has the parent's prefix followed by its
    own, the parent's router, and the parent's decorators followed by its
    own.  In each case the combined slice sits in an array that did not
    exist before the call.  Sub-groups nest to any depth. *)
Theorem Group_forwards σ g :
  live (mem σ) (g_middleware g) →
  (∀ path h mws, live (mem σ) mws →
     ∃ c, combined_of σ (Group_Handle g path h mws σ).2 (g_middleware g) mws c ∧
       routers (Group_Handle g path h mws σ).2
       = alter (Router_Handle (g_prefix g +:+ path) h c) (g_router g) (routers σ)) ∧
  (∀ method path h mws, live (mem σ) mws →
     ∃ c, combined_of σ (Group_Method g method path h mws σ).2 (g_middleware g) mws c ∧
       routers (Group_Method g method path h mws σ).2
       = alter (Router_Method method (g_prefix g +:+ path) h c) (g_router g)
           (routers σ)) ∧
  (Group_Read g = Group_Method g "read" ∧ Group_Write g = Group_Method g "write" ∧
   Group_Update g = Group_Method g "update" ∧
   Group_Delete g = Group_Method g "delete") ∧
  (∀ prefix h mws, live (mem σ) mws →
     ∃ c, combined_of σ (Group_HandlePrefix g prefix h mws σ).2 (g_middleware g) mws c ∧
       routers (Group_HandlePrefix g prefix h mws σ).2
       = alter (Router_HandlePrefix (g_prefix g +:+ prefix) h c) (g_router g)
           (routers σ)) ∧
  (∀ prefix mws, live (mem σ) mws →
     g_prefix (Group_Group g prefix mws σ).1 = g_prefix g +:+ prefix ∧
     g_router (Group_Group g prefix mws σ).1 = g_router g ∧
     combined_of σ (Group_Group g prefix mws σ).2 (g_middleware g) mws
       (g_middleware (Group_Group g prefix mws σ).1) ∧
     routers (Group_Group g prefix mws σ).2 = routers σ) ∧
  (∀ args, Forall (λ a, live (mem σ) a.2) args →
     g_prefix (nest g args σ).1 = g_prefix g +:+ foldr String.append "" args.*1 ∧
     g_router (nest g args σ).1 = g_router g ∧
     sl_read None (mem (nest g args σ).2) (g_middleware (nest g args σ).1)
       = sl_read None (mem σ) (g_middleware g)
         ++ concat (sl_read None (mem σ) <$> args.*2)).
Proof.
  intros Hg.
  split; [intros path h mws Hm;
          exact (Group_register σ g mws (Router_Handle (g_prefix g +:+ path) h) Hg Hm)|].
  split; [intros method path h mws Hm;
          exact (Group_register σ g mws
                   (Router_Method method (g_prefix g +:+ path) h) Hg Hm)|].
  split; [done|].
  split; [intros prefix h mws Hm;
          exact (Group_register σ g mws
                   (Router_HandlePrefix (g_prefix g +:+ prefix) h) Hg Hm)|].
  split.
  - intros prefix mws Hm. unfold Group_Group, mbind, St_bind, mret, St_ret.
    rewrite on_mem_combineMW by done. cbn [fst snd g_prefix g_router g_middleware routers].
    split; [done|]. split; [done|]. split; [apply combined_of_fresh|done].
  - intros args Hargs. destruct (nest_spec args σ g Hg Hargs) as (E1 & E2 & E3 & _).
    done.
Qed.

Lemma Group_forwards_witness :
  g_prefix (nest api_group [("/v1", nil_slice); ("/admin", chain_slice)] group_heap).1
    = "/api" +:+ foldr String.append "" [("/v1", nil_slice); ("/admin", chain_slice)].*1.
Proof.
  refine (proj1 (proj2 (proj2 (proj2 (proj2 (proj2
    (Group_forwards group_heap api_group _)))))
    [("/v1", nil_slice); ("/admin", chain_slice)] _)).
  - intros p Hp. injection Hp as <-. vm_compute. reflexivity.
  - repeat constructor.
    + intros p Hp. discriminate Hp.
    + intros p Hp. injection Hp as <-. vm_compute. reflexivity.
Defined.

(** * Further properties of the code *)

(** ** Registration and lookup in the router *)

Lemma string_app_inj_r (a b c : string) : a +:+ c = b +:+ c → a = b.
Proof.
  revert b. induction a as [|x a IH]; intros [|y b] E; [done|..].
  - change (c = String y (b +:+ c)) in E.
    apply (f_equal String.length) in E. cbn [String.length] in E.
    rewrite string_length_app in E. lia.
  - change (String x (a +:+ c) = c) in E.
    apply (f_equal String.length) in E. cbn [String.length] in E.
    rewrite string_length_app in E. lia.
  - change (String x (a +:+ c) = String y (b +:+ c)) in E.
    injection E as -> E. f_equal. by apply IH.
Qed.

(** Two composite keys for one path differ when the methods differ. *)
Lemma composite_key_inj (m1 m2 path : string) :
  (m1 +:+ " ") +:+ path = (m2 +:+ " ") +:+ path → m1 = m2.
Proof. intros E. by do 2 apply string_app_inj_r in E. Qed.

(** Two literal prefixes of one path that have the same length are the
    same string. *)
Lemma prefix_same_length (a b path : string) :
  String.prefix a path = true → String.prefix b path = true →
  String.length a = String.length b → a = b.
Proof.
  intros Ha Hb Hlen. apply prefix_correct in Ha, Hb. congruence.
Qed.


Local Ltac key_ne :=
  first [ apply composite_key_longer
        | apply not_eq_sym, composite_key_longer
        | intros E; apply composite_key_inj in E; congruence ].



(** X2. A method-specific route takes precedence over the path-only
    route of the same path, whichever was registered first: a request
    with that method gets the method-specific route, and a request with
    another method, for which nothing is registered, gets the path-only
    route. *)
Theorem Method_over_Handle m rt path method g h1 mws1 h2 mws2 :
  let rt12 := Router_Handle path h2 mws2 (Router_Method method path h1 mws1 rt) in
  let rt21 := Router_Method method path h1 mws1 (Router_Handle path h2 mws2 rt) in
  rt12 = rt21 ∧
  Router_Find m rt12 path method g = route_handler m g (mkRoute h1 mws1) ∧
  ∀ other, other ≠ method →
    exact rt !! ((other +:+ " ") +:+ path) = None →
    Router_Find m rt12 path other g = route_handler m g (mkRoute h2 mws2).
Proof.
  intros rt12 rt21. subst rt12 rt21.
  unfold Router_Handle, Router_Method, Router_Find. cbn [exact prefixes notFound].
  split; [|split].
  - f_equal. apply insert_insert_ne. key_ne.
  - rewrite lookup_insert_ne by key_ne. by rewrite lookup_insert_eq.
  - intros other Hne Hnone.
    rewrite lookup_insert_ne by key_ne.
    rewrite lookup_insert_ne, Hnone by key_ne.
    by rewrite lookup_insert_eq.
Qed.

Lemma Method_over_Handle_witness :
  Router_Find ∅ (Router_Handle "/users" None nil_slice
                   (Router_Method "write" "/users" ok_handler nil_slice NewRouter))
    "/users" "read" nil_slice
  = route_handler ∅ nil_slice (mkRoute None nil_slice).
Proof.
  refine (proj2 (proj2 (Method_over_Handle ∅ NewRouter "/users" "write" nil_slice
                   ok_handler nil_slice None nil_slice)) "read" _ _).
  - discriminate.
  - reflexivity.
Defined.

(** The scan ignores a further entry that does not match, has the empty
    prefix, or is no longer than a matching entry it has already seen. *)
Lemma scan_snoc_keep path prs pr :
  matches path pr = false ∨ plen pr = 0 ∨
    (∃ j pr', prs !! j = Some pr' ∧ matches path pr' = true ∧ plen pr ≤ plen pr') →
  scan path (prs ++ [pr]) = scan path prs.
Proof.
  intros Hcase. rewrite scan_snoc.
  pose proof (scan_spec path prs) as Hs. unfold scan_inv in Hs.
  unfold scan_step. fold (matches path pr). fold (plen pr).
  destruct (matches path pr) eqn:Hm; [|done]. cbn [andb].
  destruct (Nat.ltb_spec (scan path prs).2 (plen pr)) as [Hlt|Hge]; [|done].
  exfalso. destruct Hcase as [?|[Hz|(j & pr' & Hj & Hm' & Hle)]]; [done|lia|].
  destruct (scan path prs).1 as [r|].
  - destruct Hs as (_ & _ & _ & _ & _ & _ & _ & Hmax & _).
    specialize (Hmax j pr' Hj Hm'). lia.
  - destruct Hs as [Hn Hz]. specialize (Hz j pr' Hj Hm'). lia.
Qed.

(** The scan takes a further entry that matches, has a non-empty prefix
    and is strictly longer than every matching entry before it. *)
Lemma scan_snoc_take path prs pr :
  matches path pr = true → 0 < plen pr →
  (∀ j pr', prs !! j = Some pr' → matches path pr' = true → plen pr' < plen pr) →
  scan path (prs ++ [pr]) = (Some (pr_route pr), plen pr).
Proof.
  intros Hm Hpos Hlonger. rewrite scan_snoc.
  pose proof (scan_spec path prs) as Hs. unfold scan_inv in Hs.
  unfold scan_step. fold (matches path pr). fold (plen pr).
  rewrite Hm. cbn [andb].
  destruct (Nat.ltb_spec (scan path prs).2 (plen pr)) as [Hlt|Hge]; [done|].
  exfalso. destruct (scan path prs).1 as [r|].
  - destruct Hs as (i & pr0 & Hi & _ & Hn & _ & Hm0 & _).
    specialize (Hlonger i pr0 Hi Hm0). lia.
  - destruct Hs as [Hn _]. lia.
Qed.

(** X3. What one more [HandlePrefix] changes.  A request that an exact
    route answers is answered as before.  Otherwise the new route answers
    when its prefix is non-empty, is a literal prefix of the path and is
    strictly longer than every registered prefix that matches; in every
    other case the answer is the one given before the registration. *)
Theorem HandlePrefix_effect m rt path method g pre h mws :
  let new := mkPrefixRoute pre (mkRoute h mws) in
  let rt' := Router_HandlePrefix pre h mws rt in
  (is_Some (exact rt !! ((method +:+ " ") +:+ path)) ∨ is_Some (exact rt !! path) →
     Router_Find m rt' path method g = Router_Find m rt path method g) ∧
  (exact rt !! ((method +:+ " ") +:+ path) = None → exact rt !! path = None →
     matches path new = true → 0 < plen new →
     (∀ j pr, prefixes rt !! j = Some pr → matches path pr = true →
              plen pr < plen new) →
     Router_Find m rt' path method g = route_handler m g (mkRoute h mws)) ∧
  (matches path new = false ∨ plen new = 0 ∨
     (∃ j pr, prefixes rt !! j = Some pr ∧ matches path pr = true ∧
              plen new ≤ plen pr) →
     Router_Find m rt' path method g = Router_Find m rt path method g).
Proof.
  intros new rt'. subst rt'. unfold Router_HandlePrefix, Router_Find.
  cbn [exact prefixes notFound]. fold new. split; [|split].
  - intros [[r Hr]|[r Hr]]; rewrite Hr; [done|].
    by destruct (exact rt !! ((method +:+ " ") +:+ path)).
  - intros -> -> Hm Hpos Hlonger.
    by rewrite (scan_snoc_take path (prefixes rt) new Hm Hpos Hlonger).
  - intros Hcase. by rewrite (scan_snoc_keep path (prefixes rt) new Hcase).
Qed.

Lemma HandlePrefix_effect_witness :
  Router_Find ∅ (Router_HandlePrefix "/api/v1" None nil_slice users_router)
    "/api/v1/x" "read" nil_slice
  = route_handler ∅ nil_slice (mkRoute None nil_slice).
Proof.
  refine (proj1 (proj2 (HandlePrefix_effect ∅ users_router "/api/v1/x" "read"
                          nil_slice "/api/v1" None nil_slice)) _ _ _ _ _).
  - reflexivity.
  - reflexivity.
  - reflexivity.
  - unfold plen. simpl. lia.
  - intros [|[|j]] pr Hj Hm; simpl in Hj; [|discriminate..].
    injection Hj as <-. unfold plen. simpl. lia.
Defined.

(** X4. [HandlePrefix] never replaces: registering a prefix that is
    already registered changes the answer to no request, so the handler
    of the second registration is never reached. *)
Theorem HandlePrefix_duplicate_dead m rt path method g pre h mws :
  (∃ j pr, prefixes rt !! j = Some pr ∧ pr_prefix pr = pre) →
  Router_Find m (Router_HandlePrefix pre h mws rt) path method g
  = Router_Find m rt path method g.
Proof.
  intros (j & pr & Hj & Hpre). unfold Router_HandlePrefix, Router_Find.
  cbn [exact prefixes notFound].
  rewrite scan_snoc_keep; [done|].
  destruct (matches path (mkPrefixRoute pre (mkRoute h mws))) eqn:Hm; [|by left].
  right. right. exists j, pr. split; [done|].
  unfold matches, plen in *. cbn [pr_prefix] in *. rewrite Hpre. done.
Qed.

Lemma HandlePrefix_duplicate_dead_witness :
  Router_Find ∅ (Router_HandlePrefix "/api" None nil_slice users_router)
    "/api/x" "read" nil_slice
  = Router_Find ∅ users_router "/api/x" "read" nil_slice.
Proof.
  apply HandlePrefix_duplicate_dead.
  exists 0, (mkPrefixRoute "/api" (mkRoute ok_handler nil_slice)).
  split; reflexivity.
Defined.

Lemma fmap_NoDup_inj {A B} (f : A → B) (l : list A) i j x y :
  NoDup (f <$> l) → l !! i = Some x → l !! j = Some y → f x = f y → x = y.
Proof.
  intros Hnd Hi Hj Hf.
  assert (i = j) as ->; [|congruence].
  eapply (NoDup_lookup (f <$> l)); [done|..].
  - rewrite list_lookup_fmap, Hi. done.
  - rewrite list_lookup_fmap, Hj. cbn. by rewrite Hf.
Qed.

Lemma scan_perm path prs prs' :
  prs ≡ₚ prs' → NoDup (pr_prefix <$> prs) →
  scan path prs = scan path prs'.
Proof.
  intros Hperm Hnd.
  assert (∀ pr, pr ∈ prs ↔ pr ∈ prs') as Hin by (intros pr; by rewrite Hperm).
  pose proof (scan_spec path prs) as H1. pose proof (scan_spec path prs') as H2.
  unfold scan_inv in *.
  destruct (scan path prs) as [[r1|] n1], (scan path prs') as [[r2|] n2];
    cbn [fst snd] in *.
  - destruct H1 as (i1 & pr1 & Hi1 & Hr1 & Hn1 & _ & Hm1 & Hmax1 & _).
    destruct H2 as (i2 & pr2 & Hi2 & Hr2 & Hn2 & _ & Hm2 & Hmax2 & _).
    assert (pr2 ∈ prs) as Hin2 by (apply Hin; by eapply list_elem_of_lookup_2).
    assert (pr1 ∈ prs') as Hin1 by (apply Hin; by eapply list_elem_of_lookup_2).
    apply list_elem_of_lookup in Hin2 as [j2 Hj2].
    apply list_elem_of_lookup in Hin1 as [j1 Hj1].
    pose proof (Hmax1 j2 pr2 Hj2 Hm2). pose proof (Hmax2 j1 pr1 Hj1 Hm1).
    assert (pr_prefix pr1 = pr_prefix pr2) as Hpre.
    { apply (prefix_same_length _ _ path); [done..|]. unfold plen in *. lia. }
    assert (pr1 = pr2) as -> by (by eapply (fmap_NoDup_inj pr_prefix prs)).
    congruence.
  - exfalso. destruct H1 as (i1 & pr1 & Hi1 & _ & Hn1 & Hpos & Hm1 & _).
    destruct H2 as [_ Hz].
    assert (pr1 ∈ prs') as Hin1 by (apply Hin; by eapply list_elem_of_lookup_2).
    apply list_elem_of_lookup in Hin1 as [j1 Hj1].
    specialize (Hz j1 pr1 Hj1 Hm1). lia.
  - exfalso. destruct H2 as (i2 & pr2 & Hi2 & _ & Hn2 & Hpos & Hm2 & _).
    destruct H1 as [_ Hz].
    assert (pr2 ∈ prs) as Hin2 by (apply Hin; by eapply list_elem_of_lookup_2).
    apply list_elem_of_lookup in Hin2 as [j2 Hj2].
    specialize (Hz j2 pr2 Hj2 Hm2). lia.
  - destruct H1 as [-> _], H2 as [-> _]. done.
Qed.

(** X5. When the registered prefixes are pairwise different, the order
    in which the prefix routes were registered does not matter: two
    routers that differ only in that order give the same answer to every
    request. *)
Theorem Find_prefix_order_irrelevant m ex nf prs prs' path method g :
  prs ≡ₚ prs' → NoDup (pr_prefix <$> prs) →
  Router_Find m (mkRouter ex prs nf) path method g
  = Router_Find m (mkRouter ex prs' nf) path method g.
Proof.
  intros Hperm Hnd. unfold Router_Find. cbn [exact prefixes notFound].
  by rewrite (scan_perm path prs prs' Hperm Hnd).
Qed.

Lemma Find_prefix_order_irrelevant_witness :
  Router_Find ∅ (mkRouter ∅ [mkPrefixRoute "/a" (mkRoute ok_handler nil_slice);
                             mkPrefixRoute "/ab" (mkRoute None nil_slice)] None)
    "/ab/x" "read" nil_slice
  = Router_Find ∅ (mkRouter ∅ [mkPrefixRoute "/ab" (mkRoute None nil_slice);
                               mkPrefixRoute "/a" (mkRoute ok_handler nil_slice)] None)
    "/ab/x" "read" nil_slice.
Proof.
  apply Find_prefix_order_irrelevant.
  - apply Permutation_swap.
  - apply (bool_decide_unpack _). vm_compute. reflexivity.
Defined.



(** ** Nil decorators *)








(** ** Who shares a decorator array with whom *)

Lemma sl_read_store_same {A} (zero : A) (m : gmap loc (list A)) s p arr i v :
  base s = Some p → m !! p = Some arr → off s + len s ≤ length arr →
  i < len s →
  sl_read zero (sl_store s i [v] m) s = <[i := v]> (sl_read zero m s).
Proof.
  intros Hb Hp Hlen Hi. apply list_eq. intros j.
  destruct (decide (j < len s)) as [Hj|Hj].
  - rewrite sl_read_lookup by done. unfold sl_store, cell. rewrite Hb.
    cbn [mbind option_bind]. rewrite lookup_alter_eq, Hp. cbn.
    destruct (decide (i = j)) as [->|Hne].
    + rewrite !list_lookup_insert_eq; [done|by rewrite length_sl_read|lia].
    + rewrite !list_lookup_insert_ne by lia.
      rewrite sl_read_lookup by done. unfold cell. rewrite Hb. cbn. by rewrite Hp.
  - rewrite !lookup_ge_None_2;
      [done|rewrite length_insert, length_sl_read; lia|rewrite length_sl_read; lia].
Qed.

Lemma mutate_all_dom growslice prog a b (m : gmap loc (list MiddlewareFunc)) :
  dom m ⊆ dom (mutate_all growslice prog a b m).2.
Proof.
  revert a b m. induction prog as [|[[] μ] prog IH]; intros a b m; [done|..];
    cbn [mutate_all].
  - assert (dom m ⊆ dom (mutate growslice μ a m).2) as Hd.
    { destruct μ as [i v|v]; unfold mutate, sl_set, append.
      - destruct (decide (i < len a)); cbn [snd]; [by rewrite dom_sl_store|done].
      - destruct (decide (len a < cap a)); cbn [snd];
          [by rewrite dom_sl_store|rewrite dom_insert_L; apply union_subseteq_r]. }
    destruct (mutate growslice μ a m) as [a' m']. cbn [snd] in Hd.
    etrans; [exact Hd|apply IH].
  - assert (dom m ⊆ dom (mutate growslice μ b m).2) as Hd.
    { destruct μ as [i v|v]; unfold mutate, sl_set, append.
      - destruct (decide (i < len b)); cbn [snd]; [by rewrite dom_sl_store|done].
      - destruct (decide (len b < cap b)); cbn [snd];
          [by rewrite dom_sl_store|rewrite dom_insert_L; apply union_subseteq_r]. }
    destruct (mutate growslice μ b m) as [b' m']. cbn [snd] in Hd.
    etrans; [exact Hd|apply IH].
Qed.

(** X9. [Router.Handle] keeps the caller's decorator slice without
    copying it: after [mws[i] = d] the route runs with [d] in place [i].
    Routes registered on the router directly share their decorators with
    whoever still holds that slice. *)
Theorem Handle_shares_slice m rt path method h mws p arr i d m' :
  exact rt !! ((method +:+ " ") +:+ path) = None →
  base mws = Some p → m !! p = Some arr → off mws + len mws ≤ length arr →
  sl_set mws i d m = Ok m' →
  Router_Find m (Router_Handle path h mws rt) path method nil_slice
    = compose h (sl_read None m mws) ∧
  Router_Find m' (Router_Handle path h mws rt) path method nil_slice
    = compose h (<[i := d]> (sl_read None m mws)).
Proof.
  intros Hnone Hb Hp Hlen Hset. unfold sl_set in Hset.
  destruct (decide (i < len mws)) as [Hi|]; [|done]. injection Hset as <-.
  assert (∀ m0, Router_Find m0 (Router_Handle path h mws rt) path method nil_slice
                = route_handler m0 nil_slice (mkRoute h mws)) as HF.
  { intros m0. unfold Router_Find, Router_Handle. cbn [exact].
    rewrite lookup_insert_ne, Hnone by key_ne. by rewrite lookup_insert_eq. }
  assert (live m mws) as Hl.
  { intros q Hq. rewrite Hb in Hq. injection Hq as <-. apply elem_of_dom. eauto. }
  rewrite !HF. split.
  - rewrite route_handler_compose; [done|apply live_nil_slice|done].
  - rewrite route_handler_compose; [|apply live_nil_slice|].
    + cbn [middleware handler]. f_equal. cbn [app].
      change (sl_read None (sl_store mws i [d] m) nil_slice) with (@nil MiddlewareFunc).
      cbn [app]. by eapply sl_read_store_same.
    + intros q Hq. rewrite dom_sl_store. by apply Hl.
Qed.

Lemma Handle_shares_slice_witness :
  Router_Find (sl_store chain_slice 1 [None]
                 (chain_mem (tracer "A") (tracer "B") (tracer "C")))
    (Router_Handle "/x" ok_handler chain_slice NewRouter) "/x" "read" nil_slice
  = compose ok_handler
      (<[1 := None]> (sl_read None (chain_mem (tracer "A") (tracer "B") (tracer "C"))
                        chain_slice)).
Proof.
  refine (proj2 (Handle_shares_slice
    (chain_mem (tracer "A") (tracer "B") (tracer "C")) NewRouter "/x" "read"
    ok_handler chain_slice 0 [Some (tracer "A"); Some (tracer "B"); Some (tracer "C")]
    1 None _ _ _ _ _ _)).
  - reflexivity.
  - reflexivity.
  - reflexivity.
  - simpl. lia.
  - reflexivity.
Defined.

(** X10. A route registered through a group keeps the decorators the
    group and the call had at registration: [Find] wraps the handler in
    the global decorators, then the group's, then the call's own, and no
    later index assignment or append on the group's slice or on the
    caller's slice changes that. *)
Theorem Group_route_immune growslice σ g path h mws rt method gl prog :
  live (mem σ) (g_middleware g) → live (mem σ) mws → live (mem σ) gl →
  routers σ !! g_router g = Some rt →
  exact rt !! ((method +:+ " ") +:+ (g_prefix g +:+ path)) = None →
  let σ1 := (Group_Handle g path h mws σ).2 in
  let m2 := (mutate_all growslice prog (g_middleware g) mws (mem σ1)).2 in
  ∃ rt1, routers σ1 !! g_router g = Some rt1 ∧
    Router_Find m2 rt1 (g_prefix g +:+ path) method gl
    = compose h (sl_read None m2 gl
                 ++ sl_read None (mem σ) (g_middleware g)
                 ++ sl_read None (mem σ) mws).
Proof.
  intros Hg Hm Hgl Hrt Hnone σ1 m2. subst σ1 m2.
  unfold Group_Handle, mbind, St_bind. rewrite on_mem_combineMW by done.
  unfold on_router, modify. cbn [fst snd mem routers].
  set (p := fresh (dom (mem σ))).
  set (c := Slice (Some p) 0 _ _).
  set (m1 := <[p := _]> (mem σ)).
  set (m2 := (mutate_all growslice prog (g_middleware g) mws m1).2).
  eexists. split; [by rewrite lookup_alter_eq, Hrt|].
  assert (p ∈ dom m1) as Hp.
  { subst m1. rewrite dom_insert_L. apply elem_of_union. left.
    by apply elem_of_singleton. }
  assert (dom m1 ⊆ dom m2) as Hdom by apply mutate_all_dom.
  assert (sl_read None m2 c
          = sl_read None (mem σ) (g_middleware g) ++ sl_read None (mem σ) mws) as Hc.
  { subst m2. rewrite (mutate_all_frame growslice prog _ _ m1 c p);
      [|done|done|by apply live_not_fresh..].
    exact (proj2 (combined_of_fresh σ (g_middleware g) mws (routers σ))). }
  unfold Router_Find, Router_Handle. cbn [exact].
  rewrite lookup_insert_ne, Hnone by key_ne. rewrite lookup_insert_eq.
  change (route_handler m2 gl (mkRoute h c) = compose h
            (sl_read None m2 gl ++ sl_read None (mem σ) (g_middleware g)
             ++ sl_read None (mem σ) mws)).
  rewrite route_handler_compose.
  - cbn [handler middleware]. by rewrite Hc.
  - intros q Hq. apply Hdom. subst m1. rewrite dom_insert_L.
    apply elem_of_union. right. by apply Hgl.
  - intros q Hq. injection Hq as <-. by apply Hdom.
Qed.

Lemma Group_route_immune_witness :
  ∃ rt1, routers (Group_Handle api_group "/x" ok_handler nil_slice group_heap).2 !! 3
         = Some rt1 ∧
    Router_Find
      (mutate_all (λ n, 2 * n) [(true, SetIndex 0 None)] chain_slice nil_slice
         (mem (Group_Handle api_group "/x" ok_handler nil_slice group_heap).2)).2
      rt1 ("/api" +:+ "/x") "read" nil_slice
    = compose ok_handler
        (sl_read None
           (mutate_all (λ n, 2 * n) [(true, SetIndex 0 None)] chain_slice nil_slice
              (mem (Group_Handle api_group "/x" ok_handler nil_slice group_heap).2)).2
           nil_slice
         ++ sl_read None (mem group_heap) chain_slice
         ++ sl_read None (mem group_heap) nil_slice).
Proof.
  refine (Group_route_immune (λ n, 2 * n) group_heap api_group "/x" ok_handler
            nil_slice NewRouter "read" nil_slice [(true, SetIndex 0 None)]
            _ _ _ _ _).
  - intros p Hp. injection Hp as <-. vm_compute. reflexivity.
  - intros p Hp. discriminate Hp.
  - intros p Hp. discriminate Hp.
  - reflexivity.
  - reflexivity.
Defined.

(** ** Built-in decorators *)

Lemma set_of_lookup `{Countable K} (xs : list K) (x : K) :
  (x ∈ xs → set_of xs !! x = Some tt) ∧ (x ∉ xs → set_of xs !! x = None).
Proof.
  unfold set_of.
  assert (∀ (acc : gmap K unit),
            foldl (λ set y, <[y := tt]> set) acc xs !! x
            = if decide (x ∈ xs) then Some tt else acc !! x) as Hgen.
  { induction xs as [|y xs IH]; intros acc; cbn [foldl].
    - rewrite decide_False; [done|]. apply not_elem_of_nil.
    - rewrite IH. destruct (decide (x ∈ xs)) as [Hin|Hnin].
      + rewrite decide_True; [done|]. apply elem_of_cons. by right.
      + destruct (decide (x = y)) as [->|Hne].
        * rewrite decide_True, lookup_insert_eq; [done|]. apply elem_of_cons. by left.
        * rewrite decide_False, lookup_insert_ne; [done|done|].
          intros [?|?]%elem_of_cons; done. }
  rewrite Hgen. split; intros Hx.
  - by rewrite decide_True.
  - rewrite decide_False, lookup_empty; done.
Qed.

Lemma bound_to_fields w c wr r s :
  bound_to w c wr r s →
  contexts w !! c ≫= Response = Some wr ∧
  contexts w !! c ≫= Request = Some r ∧
  contexts w !! c ≫= server = Some s.
Proof. intros [st ->]. done. Qed.

(** X11. [MethodFilter] on a bound context: a request whose method is
    among the listed ones is handled exactly as by the wrapped handler;
    any other request is answered "bad_request" with the body
    "method not allowed" and the wrapped handler is not called.  With no
    method listed every request is refused. *)
Theorem MethodFilter_filters methods next w c wr r s :
  bound_to w c wr r s →
  (Method r ∈ methods → call (MethodFilter methods next) c w = call next c w) ∧
  (Method r ∉ methods →
     call (MethodFilter methods next) c w
     = (mkWorld (contexts w) (ctxPool w)
          (responses w ++ [(wr, "bad_request", "method not allowed")]) (logged w),
        Return None)) ∧
  (call (MethodFilter [] next) c w
   = (mkWorld (contexts w) (ctxPool w)
        (responses w ++ [(wr, "bad_request", "method not allowed")]) (logged w),
      Return None)).
Proof.
  intros Hb. destruct (bound_to_fields _ _ _ _ _ Hb) as (HR & HQ & _).
  assert (∀ ms, Method r ∉ ms →
            call (MethodFilter ms next) c w
            = (mkWorld (contexts w) (ctxPool w)
                 (responses w ++ [(wr, "bad_request", "method not allowed")]) (logged w),
               Return None)) as Hrej.
  { intros ms Hnin. unfold MethodFilter, call, Context_Method, Context_Error.
    rewrite HQ, (proj2 (set_of_lookup ms (Method r)) Hnin), HR. done. }
  split; [|split; [apply Hrej|apply Hrej, not_elem_of_nil]].
  intros Hin. unfold MethodFilter, Context_Method. cbn [call].
  by rewrite HQ, (proj1 (set_of_lookup methods (Method r)) Hin).
Qed.

Lemma MethodFilter_filters_witness :
  call (MethodFilter ["read"; "write"] (terminal "H")) 0
    (mkWorld {[ 0 := mkContext (Some 8) (Some first_request) (Some 1) None ]} [] [] [])
  = call (terminal "H") 0
      (mkWorld {[ 0 := mkContext (Some 8) (Some first_request) (Some 1) None ]} [] [] []).
Proof.
  refine (proj1 (MethodFilter_filters ["read"; "write"] (terminal "H")
    (mkWorld {[ 0 := mkContext (Some 8) (Some first_request) (Some 1) None ]} [] [] [])
    0 8 first_request 1 _) _).
  - exists None. reflexivity.
  - apply elem_of_cons. right. apply elem_of_cons. left. reflexivity.
Defined.

(** X12. Two method filters in a chain admit exactly the methods both
    list: the chain behaves as one filter on the methods of the outer
    list that the inner list has too. *)
Theorem MethodFilter_chain outer inner next c w :
  call (MethodFilter outer (MethodFilter inner next)) c w
  = call (MethodFilter (filter (λ m, m ∈ inner) outer) next) c w.
Proof.
  unfold MethodFilter at 1 3. cbn [call].
  destruct (Context_Method c w) as [m|e] eqn:Em; [|done].
  destruct (decide (m ∈ outer)) as [Ho|Ho].
  - rewrite (proj1 (set_of_lookup outer m) Ho).
    unfold MethodFilter. cbn [call]. rewrite Em.
    destruct (decide (m ∈ inner)) as [Hi|Hi].
    + rewrite (proj1 (set_of_lookup inner m) Hi).
      rewrite (proj1 (set_of_lookup _ m)); [done|]. by apply list_elem_of_filter.
    + rewrite (proj2 (set_of_lookup inner m) Hi).
      rewrite (proj2 (set_of_lookup _ m)); [done|].
      intros [? _]%list_elem_of_filter. done.
  - rewrite (proj2 (set_of_lookup outer m) Ho).
    rewrite (proj2 (set_of_lookup _ m)); [done|].
    intros [_ ?]%list_elem_of_filter. done.
Qed.



Section peer_facts.
Context `{Countable NodeID}.
Variable zeroNodeID : NodeID.
Variable Conn_PeerNodeID : nwep_Request → option NodeID.

Local Abbreviation peer_of := (peer_of zeroNodeID Conn_PeerNodeID).

Lemma Context_PeerNodeID_bound w c wr r s :
  bound_to w c wr r s →
  Context_PeerNodeID zeroNodeID Conn_PeerNodeID c w = Ok (peer_of r).
Proof.
  intros Hb. destruct (bound_to_fields _ _ _ _ _ Hb) as (_ & HQ & _).
  unfold Context_PeerNodeID, peer_of. rewrite HQ.
  by destruct (Conn_PeerNodeID r).
Qed.

(** X14. [RequirePeer] on a bound context: a request without a
    connection, or whose peer has the zero node id, is answered
    "unauthorized" with the body "peer identity required" and the wrapped
    handler is not called; every other request is handled exactly as by
    the wrapped handler. *)
Theorem RequirePeer_requires next w c wr r s :
  bound_to w c wr r s →
  (peer_of r = zeroNodeID →
     call (RequirePeer zeroNodeID Conn_PeerNodeID next) c w
     = (mkWorld (contexts w) (ctxPool w)
          (responses w ++ [(wr, "unauthorized", "peer identity required")])
          (logged w),
        Return None)) ∧
  (peer_of r ≠ zeroNodeID →
     call (RequirePeer zeroNodeID Conn_PeerNodeID next) c w = call next c w) ∧
  (Conn_PeerNodeID r = None → peer_of r = zeroNodeID).
Proof.
  intros Hb. destruct (bound_to_fields _ _ _ _ _ Hb) as (HR & _ & _).
  unfold RequirePeer. cbn [call].
  rewrite (Context_PeerNodeID_bound _ _ _ _ _ Hb). split; [|split].
  - intros Hz. rewrite bool_decide_eq_true_2 by done.
    unfold Context_Unauthorized, Context_Error. by rewrite HR.
  - intros Hnz. by rewrite bool_decide_eq_false_2.
  - unfold peer_of. by intros ->.
Qed.

(** X15. [AllowPeers] on a bound context lets a request through exactly
    when the node id of its peer is among the listed ones, and answers
    every other request "forbidden" with the body "peer not allowed"
    without calling the wrapped handler.  A request without a connection
    counts with the zero node id: it is let through when the zero node id
    is listed. *)
Theorem AllowPeers_allows allowed next w c wr r s :
  bound_to w c wr r s →
  (peer_of r ∈ allowed →
     call (AllowPeers zeroNodeID Conn_PeerNodeID allowed next) c w = call next c w) ∧
  (peer_of r ∉ allowed →
     call (AllowPeers zeroNodeID Conn_PeerNodeID allowed next) c w
     = (mkWorld (contexts w) (ctxPool w)
          (responses w ++ [(wr, "forbidden", "peer not allowed")]) (logged w),
        Return None)) ∧
  (Conn_PeerNodeID r = None → zeroNodeID ∈ allowed →
     call (AllowPeers zeroNodeID Conn_PeerNodeID allowed next) c w = call next c w).
Proof.
  intros Hb. destruct (bound_to_fields _ _ _ _ _ Hb) as (HR & _ & _).
  unfold AllowPeers. cbn [call].
  rewrite (Context_PeerNodeID_bound _ _ _ _ _ Hb).
  assert (peer_of r ∈ allowed →
          match set_of allowed !! peer_of r with
          | Some _ => call next c w
          | None => Context_Forbidden c "peer not allowed" w
          end = call next c w) as Hin.
  { intros Hin. by rewrite (proj1 (set_of_lookup allowed (peer_of r)) Hin). }
  split; [exact Hin|]. split.
  - intros Hnin. rewrite (proj2 (set_of_lookup allowed (peer_of r)) Hnin).
    unfold Context_Forbidden, Context_Error. by rewrite HR.
  - intros Hnone Hz. apply Hin. unfold peer_of. by rewrite Hnone.
Qed.
End peer_facts.

Lemma RequirePeer_requires_witness :
  call (RequirePeer 0 (λ _, Some 7) (terminal "H")) 0
    (mkWorld {[ 0 := mkContext (Some 8) (Some first_request) (Some 1) None ]} [] [] [])
  = call (terminal "H") 0
      (mkWorld {[ 0 := mkContext (Some 8) (Some first_request) (Some 1) None ]} [] [] []).
Proof.
  refine (proj1 (proj2 (RequirePeer_requires 0 (λ _, Some 7) (terminal "H")
    (mkWorld {[ 0 := mkContext (Some 8) (Some first_request) (Some 1) None ]} [] [] [])
    0 8 first_request 1 _)) _).
  - exists None. reflexivity.
  - vm_compute. intros E. discriminate E.
Defined.

Lemma AllowPeers_allows_witness :
  call (AllowPeers 0 (λ _, None) [0; 7] (terminal "H")) 0
    (mkWorld {[ 0 := mkContext (Some 8) (Some first_request) (Some 1) None ]} [] [] [])
  = call (terminal "H") 0
      (mkWorld {[ 0 := mkContext (Some 8) (Some first_request) (Some 1) None ]} [] [] []).
Proof.
  refine (proj2 (proj2 (AllowPeers_allows 0 (λ _, None) [0; 7] (terminal "H")
    (mkWorld {[ 0 := mkContext (Some 8) (Some first_request) (Some 1) None ]} [] [] [])
    0 8 first_request 1 _)) _ _).
  - exists None. reflexivity.
  - reflexivity.
  - apply elem_of_cons. left. reflexivity.
Defined.

(** ** More of the dispatcher and the pool *)

(** [buildHandler] is the deferred release applied to the world its body
    leaves, and the context is still allocated there when a handler that
    ran has kept it so. *)
Lemma buildHandler_shape σ self s pick wr r wd :
  pool_ok wd →
  let c := (acquireContext wr r self pick wd).1 in
  let wd1 := (acquireContext wr r self pick wd).2 in
  (∀ rt h, routers σ !! router s = Some rt →
     Router_Find (mem σ) rt (Path r) (Method r) (mw s) = Ok (Some h) →
     c ∈ dom (contexts (h c wd1).1)) →
  ∃ wd2, (buildHandler σ self s pick wr r wd).1 = (releaseContext c wd2).2 ∧
         c ∈ dom (contexts wd2).
Proof.
  intros Hok c wd1 Hkeep. subst c wd1. unfold buildHandler.
  pose proof (acquireContext_spec wr r self pick wd Hok) as HA.
  destruct (acquireContext wr r self pick wd) as [c wd1]. cbn [fst snd] in *.
  destruct HA as (Hc & _).
  assert (c ∈ dom (contexts wd1)) as Hd by (apply elem_of_dom; eauto).
  destruct (routers σ !! router s) as [rt|] eqn:Hrt; [|by eexists].
  destruct (Router_Find (mem σ) rt (Path r) (Method r) (mw s)) as [[h|]|e] eqn:HF;
    [| |by eexists].
  - specialize (Hkeep rt h eq_refl HF).
    destruct (h c wd1) as [wd' [[err|]|v]]; cbn [fst] in Hkeep; by eexists.
  - unfold Context_NotFound. rewrite Hc. cbn. by eexists.
Qed.

(** X16. Whatever a request leads to (no router, a panic in [Find], no
    handler, a handler that returns, fails or panics), the dispatcher
    releases the context it acquired: afterwards every field of that
    context is cleared and the context is in the pool.  A handler that
    ran must have left the context allocated. *)
Theorem buildHandler_releases σ self s pick wr r wd :
  pool_ok wd →
  let c := (acquireContext wr r self pick wd).1 in
  let wd1 := (acquireContext wr r self pick wd).2 in
  (∀ rt h, routers σ !! router s = Some rt →
     Router_Find (mem σ) rt (Path r) (Method r) (mw s) = Ok (Some h) →
     c ∈ dom (contexts (h c wd1).1)) →
  contexts (buildHandler σ self s pick wr r wd).1 !! c = Some zeroContext ∧
  c ∈ ctxPool (buildHandler σ self s pick wr r wd).1.
Proof.
  intros Hok c wd1 Hkeep.
  destruct (buildHandler_shape σ self s pick wr r wd Hok Hkeep) as (wd2 & E & Hd).
  fold c in E, Hd. rewrite E.
  destruct (releaseContext_spec c wd2 Hd) as (E1 & E2 & _). rewrite E1, E2.
  split; [done|]. apply elem_of_cons. by left.
Qed.

Lemma buildHandler_releases_witness :
  contexts (buildHandler users_heap 1 users_server None 8 first_request empty_world).1
    !! (acquireContext 8 first_request 1 None empty_world).1
  = Some zeroContext.
Proof.
  refine (proj1 (buildHandler_releases users_heap 1 users_server None 8
                   first_request empty_world _ _)).
  - intros c Hc. simpl in Hc. inversion Hc.
  - intros rt h Hrt HF. injection Hrt as <-. vm_compute in HF.
    injection HF as <-. vm_compute. reflexivity.
Defined.

(** X17. What the dispatcher adds to what the handler did.  When the
    handler returns an error, one error entry with the request path, the
    method and the error is logged, and no response is written on the
    handler's behalf.  When it returns without error nothing is logged.
    When it panics the panic leaves the dispatcher unchanged, after the
    release.  In all three cases the responses are those the handler
    wrote. *)
Theorem buildHandler_outcomes σ self s pick wr r wd rt h wd' out :
  pool_ok wd →
  routers σ !! router s = Some rt →
  Router_Find (mem σ) rt (Path r) (Method r) (mw s) = Ok (Some h) →
  h (acquireContext wr r self pick wd).1 (acquireContext wr r self pick wd).2
    = (wd', out) →
  responses (buildHandler σ self s pick wr r wd).1 = responses wd' ∧
  (buildHandler σ self s pick wr r wd).2
    = match out with
      | Return _ => Return None
      | Panicked v => Panicked v
      end ∧
  logged (buildHandler σ self s pick wr r wd).1
    = match out with
      | Return (Some err) =>
          logged wd' ++ [Build_LogEntry "error" "handler error"
                           [("path", Path r); ("method", Method r); ("error", err)]]
      | _ => logged wd'
      end.
Proof.
  intros Hok Hrt HF Hh. unfold buildHandler.
  destruct (acquireContext wr r self pick wd) as [c wd1]. cbn [fst snd] in Hh.
  rewrite Hrt, HF, Hh.
  unfold releaseContext, mbind, St_bind, assign, Pool_Put, modify.
  by destruct out as [[err|]|v].
Qed.

Lemma buildHandler_outcomes_witness :
  logged (buildHandler users_heap 1 users_server None 8 first_request empty_world).1
  = logged empty_world.
Proof.
  refine (proj2 (proj2 (buildHandler_outcomes users_heap 1 users_server None 8
    first_request empty_world users_router (λ _ w, (w, Return None))
    (acquireContext 8 first_request 1 None empty_world).2 (Return None) _ _ _ _))).
  - intros c Hc. simpl in Hc. inversion Hc.
  - reflexivity.
  - vm_compute. reflexivity.
  - reflexivity.
Defined.

Lemma NoDup_delete_lookup {A} (l : list A) i x :
  NoDup l → l !! i = Some x → (x ∉ delete i l) ∧ NoDup (delete i l).
Proof.
  intros Hnd Hi. rewrite delete_take_drop.
  rewrite <- (take_drop_middle l i x Hi) in Hnd.
  apply NoDup_app in Hnd as (Ht & Hdisj & Hd).
  apply NoDup_cons in Hd as [Hx Hd]. split.
  - intros [Hin|Hin]%elem_of_app; [|done].
    apply (Hdisj x Hin). apply elem_of_cons. by left.
  - apply NoDup_app. split; [done|]. split; [|done].
    intros y Hy Hy'. apply (Hdisj y Hy). apply elem_of_cons. by right.
Qed.

(** What [Get] hands out is allocated and no longer pooled; a context
    that is allocated and not pooled is another one and is left as it
    was. *)
Lemma Pool_Get_fresh pick w c w' :
  pool_ok w → NoDup (ctxPool w) → Pool_Get pick w = (c, w') →
  c ∈ dom (contexts w') ∧ (c ∉ ctxPool w') ∧ NoDup (ctxPool w') ∧ pool_ok w' ∧
  (∀ c0, c0 ∈ dom (contexts w) → (c0 ∉ ctxPool w) →
         c0 ≠ c ∧ contexts w' !! c0 = contexts w !! c0).
Proof.
  intros Hok Hnd HG. pose proof (Pool_Get_spec pick w Hok) as HS.
  rewrite HG in HS. destruct HS as (Hd & Hok' & _).
  unfold Pool_Get in HG.
  destruct (pick ≫= λ i, ctxPool w !! i ≫= λ c, Some (i, c)) as [[i c']|] eqn:E.
  - injection HG as <- <-. cbn [contexts ctxPool] in *.
    destruct pick as [j|]; [|done]. cbn in E.
    destruct (ctxPool w !! j) as [c''|] eqn:Ej; [|done]. cbn in E.
    injection E as <- <-.
    destruct (NoDup_delete_lookup _ _ _ Hnd Ej) as [Hnin Hnd'].
    split; [done|]. split; [done|]. split; [done|]. split; [done|].
    intros c0 Hc0 Hp0. split; [|done].
    intros ->. apply Hp0. by eapply list_elem_of_lookup_2.
  - injection HG as <- <-. cbn [contexts ctxPool] in *.
    split; [done|]. split.
    { intros Hin. apply Hok in Hin. by apply is_fresh in Hin. }
    split; [done|]. split; [done|]. intros c0 Hc0 _.
    assert (c0 ≠ fresh (dom (contexts w))) as Hne.
    { intros ->. by apply is_fresh in Hc0. }
    split; [done|]. by rewrite lookup_insert_ne.
Qed.

Lemma acquireContext_fresh wr r s pick w c w' :
  pool_ok w → NoDup (ctxPool w) → acquireContext wr r s pick w = (c, w') →
  contexts w' !! c = Some (mkContext (Some wr) (Some r) (Some s) None) ∧
  (c ∉ ctxPool w') ∧ NoDup (ctxPool w') ∧ pool_ok w' ∧
  (∀ c0, c0 ∈ dom (contexts w) → (c0 ∉ ctxPool w) →
         c0 ≠ c ∧ contexts w' !! c0 = contexts w !! c0).
Proof.
  intros Hok Hnd HA. pose proof (acquireContext_spec wr r s pick w Hok) as HS.
  rewrite HA in HS. destruct HS as (Hc & Hok' & _).
  unfold acquireContext, mbind, St_bind, mret, St_ret in HA.
  destruct (Pool_Get pick w) as [c' w0] eqn:HG.
  destruct (Pool_Get_fresh pick w c' w0 Hok Hnd HG) as (_ & Hnin & Hnd0 & _ & Hfr).
  unfold assign, modify in HA. injection HA as <- <-.
  cbn [contexts ctxPool] in *.
  split; [done|]. split; [done|]. split; [done|]. split; [done|].
  intros c0 Hc0 Hp0. destruct (Hfr c0 Hc0 Hp0) as [Hne E].
  split; [done|]. by rewrite !lookup_alter_ne.
Qed.

(** X18. Two acquisitions with no release between them never hand out
    the same context, whatever the pool picks, and binding the second
    leaves the first bound to its own request.  The pool must hold each
    context at most once. *)
Theorem acquire_twice_distinct wd pick1 pick2 w1 r1 s1 w2 r2 s2 :
  pool_ok wd → NoDup (ctxPool wd) →
  let c1 := (acquireContext w1 r1 s1 pick1 wd).1 in
  let wd1 := (acquireContext w1 r1 s1 pick1 wd).2 in
  let c2 := (acquireContext w2 r2 s2 pick2 wd1).1 in
  let wd2 := (acquireContext w2 r2 s2 pick2 wd1).2 in
  c1 ≠ c2 ∧
  contexts wd2 !! c1 = Some (mkContext (Some w1) (Some r1) (Some s1) None) ∧
  contexts wd2 !! c2 = Some (mkContext (Some w2) (Some r2) (Some s2) None).
Proof.
  intros Hok Hnd c1 wd1 c2 wd2. subst c1 wd1 c2 wd2.
  destruct (acquireContext w1 r1 s1 pick1 wd) as [c1 wd1] eqn:E1.
  destruct (acquireContext_fresh _ _ _ _ _ _ _ Hok Hnd E1)
    as (Hc1 & Hnin1 & Hnd1 & Hok1 & _).
  cbn [fst snd].
  destruct (acquireContext w2 r2 s2 pick2 wd1) as [c2 wd2] eqn:E2.
  destruct (acquireContext_fresh _ _ _ _ _ _ _ Hok1 Hnd1 E2)
    as (Hc2 & _ & _ & _ & Hfr).
  cbn [fst snd].
  destruct (Hfr c1) as [Hne E]; [apply elem_of_dom; eauto|done|].
  split; [done|]. split; [by rewrite E|done].
Qed.

Lemma acquire_twice_distinct_witness :
  (acquireContext 8 first_request 1 None empty_world).1
  ≠ (acquireContext 9 missing_request 1 (Some 0)
       (acquireContext 8 first_request 1 None empty_world).2).1.
Proof.
  refine (proj1 (acquire_twice_distinct empty_world None (Some 0)
                   8 first_request 1 9 missing_request 1 _ _)).
  - intros c Hc. simpl in Hc. inversion Hc.
  - simpl. constructor.
Defined.

(** ** Global decorators *)

Lemma sl_read_prefix {A} (zero : A) (m : gmap loc (list A)) p (l k : list A) c :
  sl_read zero (<[p := l ++ k]> m) (Slice (Some p) 0 (length l) c) = l.
Proof.
  apply list_eq. intros i. destruct (decide (i < length l)) as [Hi|Hi].
  - rewrite sl_read_lookup by done. unfold cell. cbn [base off mbind option_bind].
    rewrite lookup_insert_eq. cbn. rewrite lookup_app_l by done.
    destruct (lookup_lt_is_Some_2 l i Hi) as [x Hx]. by rewrite Hx.
  - rewrite !lookup_ge_None_2; [done|lia|rewrite length_sl_read; cbn; lia].
Qed.

Lemma append_slice_spec {A} (zero : A) growslice (m : gmap loc (list A)) s vs :
  slice_wf m s →
  let s' := (append_slice zero growslice s vs m).1 in
  let m' := (append_slice zero growslice s vs m).2 in
  sl_read zero m' s' = sl_read zero m s ++ sl_read zero m vs ∧
  slice_wf m' s' ∧ dom m ⊆ dom m'.
Proof.
  intros [Hlc Hwf] s' m'. subst s' m'. unfold append_slice.
  destruct (decide (len s + len vs ≤ cap s)) as [Hfit|Hgrow]; cbn [fst snd].
  - remember (sl_read zero m s) as old eqn:Hold.
    assert (length old = len s) as Holdlen by (by rewrite Hold, length_sl_read).
    destruct s as [[p|] o l c]; unfold sl_store; cbn [base off len cap] in *.
    + destruct Hwf as (arr & Hp & Hlen). split; [|split].
      * apply list_eq. intros j.
        destruct (decide (j < l + len vs)) as [Hj|Hj].
        -- rewrite sl_read_lookup by done. unfold cell. cbn [base off mbind option_bind].
           rewrite lookup_alter_eq, Hp. cbn.
           destruct (decide (j < l)) as [Hjs|Hjs].
           ++ rewrite list_lookup_inserts_lt by lia.
              rewrite lookup_app_l by lia.
              rewrite Hold, sl_read_lookup by done. unfold cell. cbn. by rewrite Hp.
           ++ rewrite list_lookup_inserts by (rewrite ?length_sl_read; lia).
              rewrite lookup_app_r by lia. rewrite Holdlen.
              replace (o + j - (o + l)) with (j - l) by lia.
              destruct (sl_read zero m vs !! (j - l)) eqn:E; [done|].
              apply lookup_ge_None_1 in E. rewrite length_sl_read in E. lia.
        -- rewrite !lookup_ge_None_2;
             [done|rewrite length_app, length_sl_read; lia
             |rewrite length_sl_read; cbn; lia].
      * split; [cbn; lia|]. cbn [base off cap].
        exists (list_inserts (o + l) (sl_read zero m vs) arr).
        rewrite lookup_alter_eq, Hp. split; [done|]. by rewrite length_inserts.
      * by rewrite dom_alter_L.
    + subst c. assert (l = 0 ∧ len vs = 0) as [-> Hv] by lia.
      split; [|split; [|done]].
      * apply list_eq. intros j.
        rewrite !lookup_ge_None_2;
          [done|rewrite length_app, length_sl_read; lia
          |rewrite length_sl_read; cbn; lia].
      * split; [cbn; lia|]. done.
  - split; [|split].
    + rewrite app_assoc.
      pose proof (sl_read_prefix zero m (fresh (dom m))
        (sl_read zero m s ++ sl_read zero m vs)
        (replicate (Nat.max (len s + len vs) (growslice (cap s)) - (len s + len vs)) zero)
        (Nat.max (len s + len vs) (growslice (cap s)))) as E.
      rewrite length_app, !length_sl_read in E. exact E.
    + split; [cbn; lia|]. cbn [base off cap]. eexists. rewrite lookup_insert_eq.
      split; [done|]. rewrite !length_app, !length_sl_read, length_replicate. lia.
    + rewrite dom_insert_L. apply union_subseteq_r.
Qed.

(** X19. [Use] adds global decorators after those already there: the
    server's decorators afterwards are the earlier ones followed by the
    new ones, so decorators registered by earlier calls stay outermost.
    The router is left alone. *)
Theorem Server_Use_accumulates growslice m s mws :
  slice_wf m (mw s) →
  let s' := (Server_Use growslice mws s m).1 in
  let m' := (Server_Use growslice mws s m).2 in
  sl_read None m' (mw s') = sl_read None m (mw s) ++ sl_read None m mws ∧
  router s' = router s ∧
  slice_wf m' (mw s') ∧
  ∀ mws2,
    sl_read None (Server_Use growslice mws2 s' m').2
      (mw (Server_Use growslice mws2 s' m').1)
    = sl_read None m (mw s) ++ sl_read None m mws ++ sl_read None m' mws2.
Proof.
  intros Hwf s' m'. subst s' m'. unfold Server_Use.
  pose proof (append_slice_spec None growslice m (mw s) mws Hwf) as H1.
  destruct (append_slice None growslice (mw s) mws m) as [mw1 m1].
  cbn [fst snd mw router] in *. destruct H1 as (E1 & Hwf1 & _).
  split; [done|]. split; [done|]. split; [done|]. intros mws2.
  pose proof (append_slice_spec None growslice m1 mw1 mws2 Hwf1) as H2.
  destruct (append_slice None growslice mw1 mws2 m1) as [mw2 m2].
  cbn [fst snd mw] in *. destruct H2 as (E2 & _).
  by rewrite E2, E1, <- app_assoc.
Qed.

Lemma Server_Use_accumulates_witness :
  sl_read None
    (Server_Use (λ n, 2 * n) chain_slice users_server
       (chain_mem (tracer "A") (tracer "B") (tracer "C"))).2
    (mw (Server_Use (λ n, 2 * n) chain_slice users_server
           (chain_mem (tracer "A") (tracer "B") (tracer "C"))).1)
  = sl_read None (chain_mem (tracer "A") (tracer "B") (tracer "C")) (mw users_server)
    ++ sl_read None (chain_mem (tracer "A") (tracer "B") (tracer "C")) chain_slice.
Proof.
  refine (proj1 (Server_Use_accumulates (λ n, 2 * n)
                   (chain_mem (tracer "A") (tracer "B") (tracer "C"))
                   users_server chain_slice _)).
  split; [simpl; lia|reflexivity].
Defined.

(** ** Routes of nested groups *)

Lemma nest_frame args : ∀ σ g s,
  live (mem σ) (g_middleware g) →
  Forall (λ a, live (mem σ) a.2) args →
  live (mem σ) s →
  sl_read None (mem (nest g args σ).2) s = sl_read None (mem σ) s ∧
  live (mem (nest g args σ).2) s.
Proof.
  induction args as [|[pre mws] args IH]; intros σ g s Hg Hargs Hs; [done|].
  apply Forall_cons in Hargs as [Hm Hargs]. cbn [snd] in Hm.
  cbn [nest]. unfold mbind, St_bind, Group_Group.
  unfold mbind, St_bind. rewrite on_mem_combineMW by done.
  unfold mret, St_ret.
  set (σ' := mkHeap _ (routers σ)). set (g' := mkGroup _ _ _).
  assert (∀ t, live (mem σ) t → live (mem σ') t) as Hlive.
  { intros t Ht. by apply live_insert. }
  destruct (IH σ' g' s) as [E1 E2].
  - intros q [= <-]. cbn [mem σ']. rewrite dom_insert_L.
    apply elem_of_union. left. by apply elem_of_singleton.
  - eapply Forall_impl; [exact Hargs|]. intros [? t] Ht. by apply Hlive.
  - by apply Hlive.
  - split; [|done]. rewrite E1. by apply sl_read_alloc.
Qed.

(** X20. A route registered through a chain of nested groups is found
    under the prefixes of all the groups followed by the route's path,
    and runs with the global decorators first, then those of the
    outermost group, then those of each sub-group in nesting order, then
    the route's own. *)
Theorem nested_group_route σ g args path h mws rt method gl :
  live (mem σ) (g_middleware g) →
  Forall (λ a, live (mem σ) a.2) args →
  live (mem σ) mws → live (mem σ) gl →
  routers σ !! g_router g = Some rt →
  let g' := (nest g args σ).1 in
  let σ' := (nest g args σ).2 in
  let σ'' := (Group_Handle g' path h mws σ').2 in
  let full := (g_prefix g +:+ foldr String.append "" args.*1) +:+ path in
  exact rt !! ((method +:+ " ") +:+ full) = None →
  ∃ rt', routers σ'' !! g_router g = Some rt' ∧
    Router_Find (mem σ'') rt' full method gl
    = compose h (sl_read None (mem σ) gl
                 ++ sl_read None (mem σ) (g_middleware g)
                 ++ concat (sl_read None (mem σ) <$> args.*2)
                 ++ sl_read None (mem σ) mws).
Proof.
  intros Hg Hargs Hm Hgl Hrt g' σ' σ'' full Hnone. subst g' σ' σ'' full.
  destruct (nest_spec args σ g Hg Hargs) as (Epre & Ert & Eread & Hlive & Ertrs).
  destruct (nest_frame args σ g mws Hg Hargs Hm) as [Emws Hlmws].
  destruct (nest_frame args σ g gl Hg Hargs Hgl) as [Egl Hlgl].
  set (g' := (nest g args σ).1) in *. set (σ' := (nest g args σ).2) in *.
  unfold Group_Handle, mbind, St_bind. rewrite on_mem_combineMW by done.
  unfold on_router, modify. cbn [fst snd mem routers].
  rewrite Ert, Ertrs, Epre.
  eexists. split; [by rewrite lookup_alter_eq, Hrt|].
  unfold Router_Find, Router_Handle. cbn [exact].
  rewrite lookup_insert_ne, Hnone by key_ne. rewrite lookup_insert_eq.
  set (c := Slice _ _ _ _). set (m1 := <[_ := _]> (mem σ')).
  change (route_handler m1 gl (mkRoute h c) = compose h
            (sl_read None (mem σ) gl ++ sl_read None (mem σ) (g_middleware g)
             ++ concat (sl_read None (mem σ) <$> args.*2)
             ++ sl_read None (mem σ) mws)).
  rewrite route_handler_compose.
  - cbn [handler middleware]. f_equal.
    assert (sl_read None m1 gl = sl_read None (mem σ) gl) as ->.
    { subst m1. by rewrite sl_read_alloc. }
    assert (sl_read None m1 c = sl_read None (mem σ') (g_middleware g')
                                ++ sl_read None (mem σ') mws) as ->
      by exact (proj2 (combined_of_fresh σ' (g_middleware g') mws (routers σ'))).
    by rewrite Eread, Emws, <- !app_assoc.
  - subst m1. by apply live_insert.
  - intros q [= <-]. subst m1. rewrite dom_insert_L.
    apply elem_of_union. left. by apply elem_of_singleton.
Qed.

Lemma nested_group_route_witness :
  ∃ rt', routers (Group_Handle
                    (nest api_group [("/v1", nil_slice)] group_heap).1
                    "/x" ok_handler nil_slice
                    (nest api_group [("/v1", nil_slice)] group_heap).2).2 !! 3
         = Some rt' ∧
    Router_Find
      (mem (Group_Handle
              (nest api_group [("/v1", nil_slice)] group_heap).1
              "/x" ok_handler nil_slice
              (nest api_group [("/v1", nil_slice)] group_heap).2).2)
      rt' (("/api" +:+ foldr String.append "" [("/v1", nil_slice)].*1) +:+ "/x")
      "read" nil_slice
    = compose ok_handler
        (sl_read None (mem group_heap) nil_slice
         ++ sl_read None (mem group_heap) chain_slice
         ++ concat (sl_read None (mem group_heap) <$> [("/v1", nil_slice)].*2)
         ++ sl_read None (mem group_heap) nil_slice).
Proof.
  refine (nested_group_route group_heap api_group [("/v1", nil_slice)] "/x"
            ok_handler nil_slice NewRouter "read" nil_slice _ _ _ _ _ _).
  - intros p Hp. injection Hp as <-. vm_compute. reflexivity.
  - repeat constructor. intros p Hp. discriminate Hp.
  - intros p Hp. discriminate Hp.
  - intros p Hp. discriminate Hp.
  - reflexivity.
  - reflexivity.
Defined.

(** ** Recover as the first global decorator *)




(** ** Options and configuration *)

Section option_facts.
Context {Keypair : Type}.
Variable LoadOrGenerateKeypair : string → Keypair + string.
Variable KeypairFromEnv : string → Keypair + string.

Local Abbreviation Apply := (Config_Apply LoadOrGenerateKeypair KeypairFromEnv).

(** The settings [Apply] builds are the five fields of the config. *)
Lemma Config_Apply_success cfg (s : Setup) s' :
  Apply cfg s = (s', None) →
  settings s' = Some (mkSettings (cfg_MaxStreams cfg) (cfg_MaxMessageSize cfg)
                        (cfg_TimeoutMs cfg) (cfg_Compression cfg) (cfg_Role cfg)).
Proof.
  unfold Config_Apply.
  destruct (decide (cfg_KeyFile cfg ≠ "")) as [?|?];
    [destruct (LoadOrGenerateKeypair (cfg_KeyFile cfg)); [|done]|];
    (match goal with
     | |- context [decide (cfg_KeyEnv cfg ≠ "" ∧ ?k = None)] =>
         destruct (decide (cfg_KeyEnv cfg ≠ "" ∧ k = None)) as [?|?];
         [destruct (KeypairFromEnv (cfg_KeyEnv cfg)); [|done]|]
     end);
    intros [= <-]; cbn [settings]; f_equal;
    destruct (decide (0 < cfg_MaxStreams cfg)%N),
             (decide (0 < cfg_MaxMessageSize cfg)%N),
             (decide (0 < cfg_TimeoutMs cfg)%N),
             (decide (cfg_Compression cfg ≠ "")),
             (decide (cfg_Role cfg ≠ "")); cbn;
    repeat match goal with
           | Hn : ¬ (_ ≠ _) |- _ => apply dec_stable in Hn
           end;
    f_equal; first [lia | congruence].
Qed.

(** X22. [Config.Apply] does not merge: when it succeeds the server's
    settings are exactly the five transport fields of the config, zero
    and empty fields included, so settings made by earlier options are
    gone, also under a config whose fields are all zero.  When it fails
    the settings are the ones the server had. *)
Theorem Config_Apply_replaces_settings cfg (s : Setup) :
  (∀ s', Apply cfg s = (s', None) →
     settings s' = Some (mkSettings (cfg_MaxStreams cfg) (cfg_MaxMessageSize cfg)
                           (cfg_TimeoutMs cfg) (cfg_Compression cfg) (cfg_Role cfg))) ∧
  (∀ s' err, Apply cfg s = (s', Some err) → settings s' = settings s) ∧
  (cfg_KeyFile cfg = "" → cfg_KeyEnv cfg = "" →
     ∃ s', Apply cfg s = (s', None) ∧ keypair s' = keypair s).
Proof.
  split; [intros s'; apply Config_Apply_success|]. split.
  - intros s' err. unfold Config_Apply.
    destruct (decide (cfg_KeyFile cfg ≠ "")) as [?|?];
      [destruct (LoadOrGenerateKeypair (cfg_KeyFile cfg)); [|by intros [= <- _]]|];
      (match goal with
       | |- context [decide (cfg_KeyEnv cfg ≠ "" ∧ ?k = None)] =>
           destruct (decide (cfg_KeyEnv cfg ≠ "" ∧ k = None)) as [?|?];
           [destruct (KeypairFromEnv (cfg_KeyEnv cfg)); [|by intros [= <- _]]|]
       end); done.
  - intros HF HE. unfold Config_Apply.
    rewrite decide_False by (by intros ?).
    rewrite decide_False by (by intros [? _]).
    eexists. split; [done|done].
Qed.

(** X23. Where [Config.Apply] takes the keypair from.  A key file, when
    named, is loaded first and its keypair is kept; a failure to load it
    ends [Apply] with that error.  The environment variable is read only
    when no keypair is present after that step: not after a key file was
    loaded, and not when an earlier option had set a keypair. *)
Theorem Config_Apply_keys cfg (s : Setup) :
  (∀ kp, cfg_KeyFile cfg ≠ "" → LoadOrGenerateKeypair (cfg_KeyFile cfg) = inl kp →
     keypair (Apply cfg s).1 = Some kp ∧ (Apply cfg s).2 = None) ∧
  (∀ err, cfg_KeyFile cfg ≠ "" → LoadOrGenerateKeypair (cfg_KeyFile cfg) = inr err →
     Apply cfg s = (s, Some err)) ∧
  (∀ kp, cfg_KeyFile cfg = "" → keypair s = Some kp →
     keypair (Apply cfg s).1 = Some kp ∧ (Apply cfg s).2 = None) ∧
  (cfg_KeyFile cfg = "" → keypair s = None → cfg_KeyEnv cfg ≠ "" →
     match KeypairFromEnv (cfg_KeyEnv cfg) with
     | inl kp => keypair (Apply cfg s).1 = Some kp ∧ (Apply cfg s).2 = None
     | inr err => Apply cfg s = (s, Some err)
     end).
Proof.
  unfold Config_Apply. split; [|split; [|split]].
  - intros kp HF HL. rewrite decide_True, HL by done. cbn [keypair].
    rewrite decide_False by (by intros [_ ?]). done.
  - intros err HF HL. by rewrite decide_True, HL.
  - intros kp HF Hk. rewrite decide_False by (by intros ?).
    rewrite decide_False by (intros [_ ?]; congruence). done.
  - intros HF Hk HE. rewrite decide_False by (by intros ?).
    rewrite decide_True by done.
    destruct (KeypairFromEnv (cfg_KeyEnv cfg)); [|by destruct s]. done.
Qed.

(** X24. The order of [WithSettings] and [WithRole] matters, as does a
    later [WithConfig]: [WithRole] after [WithSettings] keeps the given
    settings and sets their role; [WithSettings] after [WithRole]
    overwrites the role; a [WithConfig] that loads no key replaces what
    both had set. *)
Theorem options_order st role cfg (s : Setup) :
  New_options [WithSettings st; WithRole role] s
    = (mkSetup (keypair s)
         (Some (mkSettings (MaxStreams st) (MaxMessageSize st) (TimeoutMs st)
                  (Compression st) role))
         (nwep_log_level s), None) ∧
  New_options [WithRole role; WithSettings st] s
    = (mkSetup (keypair s) (Some st) (nwep_log_level s), None) ∧
  (cfg_KeyFile cfg = "" → cfg_KeyEnv cfg = "" →
     (New_options [WithSettings st; WithRole role;
                   WithConfig LoadOrGenerateKeypair KeypairFromEnv cfg] s).2 = None ∧
     settings (New_options [WithSettings st; WithRole role;
                 WithConfig LoadOrGenerateKeypair KeypairFromEnv cfg] s).1
     = Some (mkSettings (cfg_MaxStreams cfg) (cfg_MaxMessageSize cfg)
               (cfg_TimeoutMs cfg) (cfg_Compression cfg) (cfg_Role cfg))).
Proof.
  split; [done|]. split; [done|]. intros HF HE.
  cbn [New_options WithSettings WithRole keypair settings nwep_log_level].
  unfold WithConfig.
  destruct (Apply cfg
    (mkSetup (keypair s)
       (Some (mkSettings (MaxStreams st) (MaxMessageSize st) (TimeoutMs st)
                (Compression st) role)) (nwep_log_level s))) as [s' [err|]] eqn:E.
  - exfalso. revert E. unfold Config_Apply.
    rewrite decide_False by (by intros ?).
    by rewrite decide_False by (by intros [? _]).
  - split; [done|]. by apply Config_Apply_success in E.
Qed.
End option_facts.

Lemma Config_Apply_replaces_settings_witness :
  settings (Config_Apply (λ _, inr "no file") (λ _, inr "no env")
              (mkConfig "" "" "" "" 0 0 0 "" 0)
              (@mkSetup unit None (Some (mkSettings 7 0 0 "" "anchor")) None)).1
  = Some (mkSettings 0 0 0 "" "").
Proof.
  refine (proj1 (Config_Apply_replaces_settings (λ _, inr "no file") (λ _, inr "no env")
                   (mkConfig "" "" "" "" 0 0 0 "" 0)
                   (@mkSetup unit None (Some (mkSettings 7 0 0 "" "anchor")) None))
            _ _).
  reflexivity.
Defined.

Lemma Config_Apply_keys_witness :
  keypair (Config_Apply (λ _, inl 1) (λ _, inl 2)
             (mkConfig "" "key.hex" "KEY" "" 0 0 0 "" 0)
             (mkSetup None None None)).1 = Some 1
  ∧ (Config_Apply (λ _, inl 1) (λ _, inl 2)
       (mkConfig "" "key.hex" "KEY" "" 0 0 0 "" 0)
       (mkSetup None None None)).2 = None.
Proof.
  refine (proj1 (Config_Apply_keys (λ _, inl 1) (λ _, inl 2)
                   (mkConfig "" "key.hex" "KEY" "" 0 0 0 "" 0)
                   (mkSetup None None None)) 1 _ _).
  - simpl. discriminate.
  - reflexivity.
Defined.

Lemma options_order_witness :
  settings (New_options
              [WithSettings (mkSettings 7 0 0 "" ""); WithRole "anchor";
               WithConfig (λ _, inr "no file") (λ _, inr "no env")
                 (mkConfig "" "" "" "" 0 0 0 "" 0)]
              (@mkSetup unit None None None)).1
  = Some (mkSettings 0 0 0 "" "").
Proof.
  refine (proj2 (proj2 (proj2 (options_order (λ _, inr "no file") (λ _, inr "no env")
    (mkSettings 7 0 0 "" "") "anchor" (mkConfig "" "" "" "" 0 0 0 "" 0)
    (@mkSetup unit None None None))) _ _)).
  - reflexivity.
  - reflexivity.
Defined.

(** ** TrustConfig.Build *)

Section trust_facts.
Context {TrustSettings TrustStorage BLSPubkey : Type}.
Variable TrustSettingsDefault : TrustSettings.
Variable refused : list (@trust_call TrustSettings TrustStorage BLSPubkey) → option string.

Lemma add_anchors_spec anchors : ∀ made,
  match add_anchors refused anchors made with
  | (calls, None) => calls = made ++ (AddAnchor <$> anchors)
  | (calls, Some err) =>
      ∃ k anchor, anchors !! k = Some anchor ∧
        refused (made ++ (AddAnchor <$> take (S k) anchors)) = Some err ∧
        calls = made ++ (AddAnchor <$> take (S k) anchors) ++ [Free]
  end.
Proof.
  induction anchors as [|a anchors IH]; intros made; cbn [add_anchors].
  { by rewrite app_nil_r. }
  destruct (refused (made ++ [AddAnchor a])) as [err|] eqn:E.
  - exists 0, a. cbn [take]. rewrite take_0. cbn [fmap list_fmap app].
    split; [done|]. split; [done|]. done.
  - specialize (IH (made ++ [AddAnchor a])).
    destruct (add_anchors refused anchors (made ++ [AddAnchor a])) as [calls [err|]].
    + destruct IH as (k & anchor & Hk & Hr & ->). exists (S k), anchor.
      cbn [take fmap list_fmap]. rewrite <- !app_assoc in *. done.
    + rewrite IH. by rewrite <- app_assoc.
Qed.

(** X25. [Build] creates the store, with the default settings when none
    are given, and adds the anchors in order.  When every call succeeds
    these are all the calls it makes and the store is not freed.  When
    an anchor is refused it frees the store at once, adds no further
    anchor and returns that error.  When the creation fails it makes no
    other call. *)
Theorem TrustConfig_Build_calls (tc : TrustConfig) :
  let first := create_call TrustSettingsDefault tc in
  match TrustConfig_Build TrustSettingsDefault refused tc with
  | (calls, None) => calls = first :: (AddAnchor <$> Anchors tc)
  | (calls, Some err) =>
      (refused [first] = Some err ∧ calls = [first]) ∨
      (refused [first] = None ∧
       ∃ k anchor, Anchors tc !! k = Some anchor ∧
         refused (first :: (AddAnchor <$> take (S k) (Anchors tc))) = Some err ∧
         calls = first :: (AddAnchor <$> take (S k) (Anchors tc)) ++ [Free])
  end.
Proof.
  intros first. unfold TrustConfig_Build. fold first.
  destruct (refused [first]) as [err|] eqn:E; [by left|].
  pose proof (add_anchors_spec (Anchors tc) [first]) as HA.
  destruct (add_anchors refused (Anchors tc) [first]) as [calls [err|]]; [|done].
  right. split; [done|]. exact HA.
Qed.
End trust_facts.
